(** * A shallow embedding of the [diff] package (adapter.go), of its example
    command (cmd/pkg-diff-example/main.go) and of the Myers edit-script
    computer described by the specification.

    Layout:
    - [GoRuntime]: panics, results, the receiver monad, slice indexing;
    - [io], [bytes], [reflect], [fmt]: the parts of Go's standard library
      that adapter.go calls, modelled after their documentation;
    - [Adapter]: [Strings], [Bytes], [Slices] and their method sets;
    - [Cmd]: the control flow of [main];
    - [Myers]: the edit-script computer and the reference edit distance. *)

From Stdlib Require Import ZArith List Bool Lia.
From Stdlib.Strings Require Import String Ascii Byte.
Import ListNotations.

Local Open Scope string_scope.
Local Open Scope Z_scope.

(* ------------------------------------------------------------------ *)
(** ** Go runtime: panics, results and methods on a pointer receiver    *)
(* ------------------------------------------------------------------ *)

Module GoRuntime.

(** The values a Go program of this repository can panic with. *)
Inductive panic : Type :=
| IndexOutOfRange (i len : Z)
    (* runtime error: index out of range [i] with length len *)
| ErrorValue (msg : string)
    (* panic(err) where err was built by fmt.Errorf *)
| ValueError (method : string) (kind : string)
    (* *reflect.ValueError: call of [method] on [kind] Value *)
| Message (msg : string).
    (* panic(msg) with a string *)

Inductive result (A : Type) : Type :=
| Ok (x : A)
| Panic (p : panic).
Arguments Ok {A} x.
Arguments Panic {A} p.

Definition is_ok {A} (r : result A) : bool :=
  match r with Ok _ => true | Panic _ => false end.

(** Go's [error] interface, observed through its message. *)
Definition error : Type := string.

(** [len(s)] as a Go [int]. *)
Definition len {A} (s : list A) : Z := Z.of_nat (List.length s).

(** [s[i]]: a run-time bounds check, then the element. *)
Definition index {A} (s : list A) (i : Z) : result A :=
  if (i <? 0) || (len s <=? i) then Panic (IndexOutOfRange i (len s))
  else match nth_error s (Z.to_nat i) with
       | Some x => Ok x
       | None => Panic (IndexOutOfRange i (len s))
       end.

(** A method with receiver [ab *S]: it may read and write the struct
    behind the pointer, and it returns a value or panics.  A panic
    leaves the struct as it was when the panic was raised. *)
Definition method (S A : Type) : Type := S -> S * result A.

Definition ret {S A} (x : A) : method S A := fun s => (s, Ok x).

Definition bind {S A B} (m : method S A) (k : A -> method S B)
  : method S B :=
  fun s => match m s with
           | (s', Ok x) => k x s'
           | (s', Panic p) => (s', Panic p)
           end.

(** Reading a field [ab.f]. *)
Definition field {S F} (f : S -> F) : method S F := fun s => (s, Ok (f s)).

(** An expression that does not touch the receiver. *)
Definition eval {S A} (r : result A) : method S A := fun s => (s, r).

(** The value a method returns (or the panic) and the struct it leaves. *)
Definition returns {S A} (m : method S A) (s : S) : result A := snd (m s).
Definition leaves {S A} (m : method S A) (s : S) : S := fst (m s).

End GoRuntime.
Import GoRuntime.

Declare Scope go_scope.
Delimit Scope go_scope with go.
Notation "x <- m ;; k" := (bind m (fun x => k))
  (at level 61, m at next level, right associativity) : go_scope.
Local Open Scope go_scope.

(* ------------------------------------------------------------------ *)
(** ** package io                                                       *)
(* ------------------------------------------------------------------ *)

Module io.

(** [io.Writer]: [Write(p []byte) (n int, err error)].  The sink is a
    state [W]; a call hands it the bytes [p] and gets back the sink's
    new state, the count and the error it reports.  By the interface's
    contract, [Write] must not modify [p], so [p] is passed by value.
    [WriteString] is present when the sink also implements
    [io.StringWriter]. *)
Class Writer (W : Type) : Type := {
  Write : W -> list byte -> W * (Z * option error);
  StringWriter : option (W -> string -> W * (Z * option error))
}.

(** [io.WriteString(w, s)]: [w.WriteString(s)] when [w] is a
    [StringWriter], otherwise one call [w.Write([]byte(s))]. *)
Definition WriteString {W} `{Writer W} (w : W) (s : string)
  : W * (Z * option error) :=
  match StringWriter with
  | Some ws => ws w s
  | None => Write w (list_byte_of_string s)
  end.

End io.

(* ------------------------------------------------------------------ *)
(** ** package bytes                                                    *)
(* ------------------------------------------------------------------ *)

Module bytes.

(** [bytes.Equal(a, b)]: same length and same bytes.  A nil slice and
    an empty slice are equal, so a [[]byte] is modelled by its
    contents. *)
Fixpoint Equal (a b : list byte) : bool :=
  match a, b with
  | [], [] => true
  | x :: a', y :: b' => Byte.eqb x y && Equal a' b'
  | _, _ => false
  end.

(** [bytes.Buffer] as a sink: both [Write] and [WriteString] append
    and report the whole length with a nil error. *)
Definition Buffer : Type := list byte.

#[global] Instance Buffer_Writer : io.Writer Buffer := {|
  io.Write := fun buf p => (buf ++ p, (len p, None))%list;
  io.StringWriter :=
    Some (fun buf s =>
            let p := list_byte_of_string s in (buf ++ p, (len p, None))%list)
|}.

End bytes.

(* ------------------------------------------------------------------ *)
(** ** package reflect                                                  *)
(* ------------------------------------------------------------------ *)

Module reflect.

(** [reflect.Kind], in the order of the package's constants. *)
Inductive Kind : Type :=
| Invalid | Bool | Int | Int8 | Int16 | Int32 | Int64
| Uint | Uint8 | Uint16 | Uint32 | Uint64 | Uintptr
| Float32 | Float64 | Complex64 | Complex128
| Array | Chan | Func | Interface | Map | Pointer | Slice
| String | Struct | UnsafePointer.

Definition Kind_eqb (k1 k2 : Kind) : bool :=
  match k1, k2 with
  | Invalid, Invalid | Bool, Bool | Int, Int | Int8, Int8 | Int16, Int16
  | Int32, Int32 | Int64, Int64 | Uint, Uint | Uint8, Uint8
  | Uint16, Uint16 | Uint32, Uint32 | Uint64, Uint64 | Uintptr, Uintptr
  | Float32, Float32 | Float64, Float64 | Complex64, Complex64
  | Complex128, Complex128 | Array, Array | Chan, Chan | Func, Func
  | Interface, Interface | Map, Map | Pointer, Pointer | Slice, Slice
  | String, String | Struct, Struct | UnsafePointer, UnsafePointer => true
  | _, _ => false
  end.

(** [Kind.String()]. *)
Definition Kind_String (k : Kind) : string :=
  match k with
  | Invalid => "invalid" | Bool => "bool" | Int => "int" | Int8 => "int8"
  | Int16 => "int16" | Int32 => "int32" | Int64 => "int64"
  | Uint => "uint" | Uint8 => "uint8" | Uint16 => "uint16"
  | Uint32 => "uint32" | Uint64 => "uint64" | Uintptr => "uintptr"
  | Float32 => "float32" | Float64 => "float64"
  | Complex64 => "complex64" | Complex128 => "complex128"
  | Array => "array" | Chan => "chan" | Func => "func"
  | Interface => "interface" | Map => "map" | Pointer => "ptr"
  | Slice => "slice" | String => "string" | Struct => "struct"
  | UnsafePointer => "unsafe.Pointer"
  end.

(** A [reflect.Type], observed through [Kind()] and [String()]. *)
Record rtype : Type := { kind : Kind; str : string }.

(** A value of type [interface{}]: the nil interface, or a dynamic
    type with its data.  For a slice (array, string) [elems] are the
    elements, each boxed the way [Index(i).Interface()] returns it;
    [repr] stands for everything else the value holds. *)
#[warnings="-register-all"]
Inductive any : Type :=
| untyped_nil
| dyn (t : rtype) (repr : Z) (elems : list any).

(** [reflect.Value]: the zero Value, or a Value holding something. *)
Inductive Value : Type :=
| Zero
| Holding (i : any).

(** [ValueOf(nil)] is the zero Value. *)
Definition ValueOf (i : any) : Value :=
  match i with
  | untyped_nil => Zero
  | dyn _ _ _ => Holding i
  end.

(** Every method but [IsValid], [Kind] and [String] panics on the zero
    Value.  [Type] is exact on the results of [ValueOf], the only
    Values adapter.go asks it of. *)
Definition Type_ (v : Value) : result rtype :=
  match v with
  | Zero => Panic (ValueError "reflect.Value.Type" (Kind_String Invalid))
  | Holding untyped_nil => Ok {| kind := Interface; str := "interface {}" |}
  | Holding (dyn t _ _) => Ok t
  end.

Definition has_len (k : Kind) : bool :=
  match k with Array | Chan | Map | Slice | String => true | _ => false end.

Definition has_index (k : Kind) : bool :=
  match k with Array | Slice | String => true | _ => false end.

(** [v.Len()]: panics unless the kind is Array, Chan, Map, Slice or
    String. *)
Definition Len (v : Value) : result Z :=
  match v with
  | Zero => Panic (ValueError "reflect.Value.Len" (Kind_String Invalid))
  | Holding untyped_nil =>
      Panic (ValueError "reflect.Value.Len" (Kind_String Interface))
  | Holding (dyn t _ elems) =>
      if has_len (kind t) then Ok (len elems)
      else Panic (ValueError "reflect.Value.Len" (Kind_String (kind t)))
  end.

(** What [Index] panics with when the index is out of range. *)
Definition outOfRange (k : Kind) : string :=
  match k with
  | Array => "reflect: array index out of range"
  | String => "reflect: string index out of range"
  | _ => "reflect: slice index out of range"
  end.

(** [v.Index(i)]: panics unless the kind is Array, Slice or String, and
    when [i] is out of range. *)
Definition Index (v : Value) (i : Z) : result Value :=
  match v with
  | Zero => Panic (ValueError "reflect.Value.Index" (Kind_String Invalid))
  | Holding untyped_nil =>
      Panic (ValueError "reflect.Value.Index" (Kind_String Interface))
  | Holding (dyn t _ elems) =>
      if has_index (kind t) then
        match index elems i with
        | Ok x => Ok (Holding x)
        | Panic _ => Panic (Message (outOfRange (kind t)))
        end
      else Panic (ValueError "reflect.Value.Index" (Kind_String (kind t)))
  end.

(** [v.Interface()]: the held value as an [interface{}]. *)
Definition Interface_ (v : Value) : result any :=
  match v with
  | Zero =>
      Panic (ValueError "reflect.Value.Interface" (Kind_String Invalid))
  | Holding i => Ok i
  end.

End reflect.

(* ------------------------------------------------------------------ *)
(** ** package fmt                                                      *)
(* ------------------------------------------------------------------ *)

Module fmt.

(** The verb [%T]: the type of the operand, [<nil>] for a nil
    interface. *)
Definition verbT (x : reflect.any) : string :=
  match x with
  | reflect.untyped_nil => "<nil>"
  | reflect.dyn t _ _ => reflect.str t
  end.

(** [fmt.Fprint(w, x)]: format [x] with the default format into a
    buffer, then hand the buffer to [w.Write] once and return what it
    returns.  [Sprint] is the default formatting. *)
Definition Fprint {W} `{io.Writer W} (Sprint : reflect.any -> list byte)
  (w : W) (x : reflect.any) : W * (Z * option error) :=
  io.Write w (Sprint x).

End fmt.

(* ------------------------------------------------------------------ *)
(** ** package diff: adapter.go                                         *)
(* ------------------------------------------------------------------ *)

Module Adapter.

(** What a [WriteATo]/[WriteBTo] call yields: the sink after the call,
    the byte count and the error. *)
Definition written (W : Type) : Type := (W * (Z * option error))%type.

(** [DiffWrite]: the union of [myers.Pair] ([LenA], [LenB], [Equal])
    and [write.Pair] ([WriteATo], [WriteBTo]). *)
Class DiffWrite (P : Type) : Type := {
  LenA : method P Z;
  LenB : method P Z;
  Equal : Z -> Z -> method P bool;
  WriteATo : forall {W} `{io.Writer W}, W -> Z -> method P (written W);
  WriteBTo : forall {W} `{io.Writer W}, W -> Z -> method P (written W)
}.

(** *** Strings *)

Record diffStrings : Type := {
  diffStrings_a : list string;
  diffStrings_b : list string
}.

Definition Strings (a b : list string) : diffStrings :=
  {| diffStrings_a := a; diffStrings_b := b |}.

Definition diffStrings_LenA : method diffStrings Z :=
  a <- field diffStrings_a ;; ret (len a).

Definition diffStrings_LenB : method diffStrings Z :=
  b <- field diffStrings_b ;; ret (len b).

Definition diffStrings_Equal (ai bi : Z) : method diffStrings bool :=
  a <- field diffStrings_a ;;
  x <- eval (index a ai) ;;
  b <- field diffStrings_b ;;
  y <- eval (index b bi) ;;
  ret (String.eqb x y).

Definition diffStrings_WriteATo {W} `{io.Writer W} (w : W) (i : Z)
  : method diffStrings (written W) :=
  a <- field diffStrings_a ;;
  x <- eval (index a i) ;;
  ret (io.WriteString w x).

Definition diffStrings_WriteBTo {W} `{io.Writer W} (w : W) (i : Z)
  : method diffStrings (written W) :=
  b <- field diffStrings_b ;;
  y <- eval (index b i) ;;
  ret (io.WriteString w y).

#[export] Instance diffStrings_DiffWrite : DiffWrite diffStrings := {|
  LenA := diffStrings_LenA;
  LenB := diffStrings_LenB;
  Equal := diffStrings_Equal;
  WriteATo := @diffStrings_WriteATo;
  WriteBTo := @diffStrings_WriteBTo
|}.

(** *** Bytes *)

Record diffBytes : Type := {
  diffBytes_a : list (list byte);
  diffBytes_b : list (list byte)
}.

Definition Bytes (a b : list (list byte)) : diffBytes :=
  {| diffBytes_a := a; diffBytes_b := b |}.

Definition diffBytes_LenA : method diffBytes Z :=
  a <- field diffBytes_a ;; ret (len a).

Definition diffBytes_LenB : method diffBytes Z :=
  b <- field diffBytes_b ;; ret (len b).

Definition diffBytes_Equal (ai bi : Z) : method diffBytes bool :=
  a <- field diffBytes_a ;;
  x <- eval (index a ai) ;;
  b <- field diffBytes_b ;;
  y <- eval (index b bi) ;;
  ret (bytes.Equal x y).

Definition diffBytes_WriteATo {W} `{io.Writer W} (w : W) (i : Z)
  : method diffBytes (written W) :=
  a <- field diffBytes_a ;;
  x <- eval (index a i) ;;
  ret (io.Write w x).

Definition diffBytes_WriteBTo {W} `{io.Writer W} (w : W) (i : Z)
  : method diffBytes (written W) :=
  b <- field diffBytes_b ;;
  y <- eval (index b i) ;;
  ret (io.Write w y).

#[export] Instance diffBytes_DiffWrite : DiffWrite diffBytes := {|
  LenA := diffBytes_LenA;
  LenB := diffBytes_LenB;
  Equal := diffBytes_Equal;
  WriteATo := @diffBytes_WriteATo;
  WriteBTo := @diffBytes_WriteBTo
|}.

(** *** Slices *)

Section Slices.

(** [reflect.DeepEqual] and the default formatting of [fmt.Print]
    belong to the standard library; the adapter is verified for any
    behaviour of theirs. *)
Variable DeepEqual : reflect.any -> reflect.any -> bool.
Variable Sprint : reflect.any -> list byte.

Record diffSlices : Type := {
  diffSlices_a : reflect.Value;
  diffSlices_b : reflect.Value;
  diffSlices_eq : reflect.any -> reflect.any -> bool
}.

(** The message of the error [Slices] panics with. *)
Definition nonSliceError (a b : reflect.any) : error :=
  "diff.Slices called with a non-slice argument: "
    ++ fmt.verbT a ++ ", " ++ fmt.verbT b.

(** [ab.a.Type().Kind() != reflect.Slice]: [Type] may panic. *)
Definition notSlice (v : reflect.Value) : result bool :=
  match reflect.Type_ v with
  | Ok t => Ok (negb (reflect.Kind_eqb (reflect.kind t) reflect.Slice))
  | Panic p => Panic p
  end.

(** [Slices(a, b, equal)]; a nil [equal] is [None].  The condition
    [x || y] evaluates [x], and [y] only when [x] is false. *)
Definition Slices (a b : reflect.any)
  (equal : option (reflect.any -> reflect.any -> bool))
  : result diffSlices :=
  let equal := match equal with None => DeepEqual | Some f => f end in
  let ab := {| diffSlices_a := reflect.ValueOf a;
               diffSlices_b := reflect.ValueOf b;
               diffSlices_eq := equal |} in
  match notSlice (diffSlices_a ab) with
  | Panic p => Panic p
  | Ok true => Panic (ErrorValue (nonSliceError a b))
  | Ok false =>
      match notSlice (diffSlices_b ab) with
      | Panic p => Panic p
      | Ok true => Panic (ErrorValue (nonSliceError a b))
      | Ok false => Ok ab
      end
  end.

Definition diffSlices_LenA : method diffSlices Z :=
  a <- field diffSlices_a ;; eval (reflect.Len a).

Definition diffSlices_LenB : method diffSlices Z :=
  b <- field diffSlices_b ;; eval (reflect.Len b).

Definition atA (i : Z) : method diffSlices reflect.any :=
  a <- field diffSlices_a ;;
  v <- eval (reflect.Index a i) ;;
  eval (reflect.Interface_ v).

Definition atB (i : Z) : method diffSlices reflect.any :=
  b <- field diffSlices_b ;;
  v <- eval (reflect.Index b i) ;;
  eval (reflect.Interface_ v).

(** Go evaluates the function value [ab.eq], then the arguments from
    left to right, then calls. *)
Definition diffSlices_Equal (ai bi : Z) : method diffSlices bool :=
  eq <- field diffSlices_eq ;;
  x <- atA ai ;;
  y <- atB bi ;;
  ret (eq x y).

Definition diffSlices_WriteATo {W} `{io.Writer W} (w : W) (i : Z)
  : method diffSlices (written W) :=
  x <- atA i ;; ret (fmt.Fprint Sprint w x).

Definition diffSlices_WriteBTo {W} `{io.Writer W} (w : W) (i : Z)
  : method diffSlices (written W) :=
  y <- atB i ;; ret (fmt.Fprint Sprint w y).

#[export] Instance diffSlices_DiffWrite : DiffWrite diffSlices := {|
  LenA := diffSlices_LenA;
  LenB := diffSlices_LenB;
  Equal := diffSlices_Equal;
  WriteATo := @diffSlices_WriteATo;
  WriteBTo := @diffSlices_WriteBTo
|}.

End Slices.

(** Whether an argument of [Slices] is a value of a slice type, and the
    elements of such a value. *)
Definition isSlice (x : reflect.any) : bool :=
  match x with
  | reflect.untyped_nil => false
  | reflect.dyn t _ _ => reflect.Kind_eqb (reflect.kind t) reflect.Slice
  end.

Definition elements (x : reflect.any) : list reflect.any :=
  match x with
  | reflect.untyped_nil => []
  | reflect.dyn _ _ elems => elems
  end.

End Adapter.

(* ------------------------------------------------------------------ *)
(** ** package flag                                                     *)
(* ------------------------------------------------------------------ *)

Module flag.

(** What [FlagSet.parseOne] makes of the next command-line argument:
    not a flag (shorter than two bytes, or not starting with a minus),
    the terminator [--], a malformed flag, or a flag name with the value
    after its first [=] past the first byte, if any. *)
Inductive token : Type :=
| NotAFlag
| Terminator
| BadSyntax
| Flag (name : string) (value : option string).

(** Cut a string at its first [=]. *)
Fixpoint cutAtEquals (s : string) : option (string * string) :=
  match s with
  | EmptyString => None
  | String c rest =>
      if Ascii.eqb c "="%char then Some (EmptyString, rest)
      else match cutAtEquals rest with
           | Some (before, after) => Some (String c before, after)
           | None => None
           end
  end.

(** A name after its minuses: bad when empty or starting with [-] or
    [=]; otherwise split at the first [=] that is not the first byte. *)
Definition named (name : string) : token :=
  match name with
  | EmptyString => BadSyntax
  | String c rest =>
      if Ascii.eqb c "-"%char || Ascii.eqb c "="%char then BadSyntax
      else match cutAtEquals rest with
           | Some (before, after) => Flag (String c before) (Some after)
           | None => Flag name None
           end
  end.

Definition classify (s : string) : token :=
  match s with
  | String m (String c rest as tail) =>
      if Ascii.eqb m "-"%char then
        if Ascii.eqb c "-"%char then
          match rest with
          | EmptyString => Terminator
          | _ => named rest
          end
        else named tail
      else NotAFlag
  | _ => NotAFlag
  end.

(** [strconv.ParseBool], which a boolean flag's [Set] uses. *)
Definition ParseBool (s : string) : option bool :=
  if existsb (String.eqb s) ["1"; "t"; "T"; "TRUE"; "true"; "True"]
  then Some true
  else if existsb (String.eqb s) ["0"; "f"; "F"; "FALSE"; "false"; "False"]
  then Some false
  else None.

(** The errors [parseOne] fails with, by their format. *)
Inductive failure : Type :=
| BadFlagSyntax (s : string)        (* bad flag syntax: %s *)
| NotDefined (name : string)        (* flag provided but not defined: -%s *)
| InvalidBoolean (value name : string)
                                    (* invalid boolean value %q for -%s *)
| NeedsArgument (name : string)     (* flag needs an argument: -%s *)
| InvalidValue (value name : string).
                                    (* invalid value %q for flag -%s *)

End flag.

(* ------------------------------------------------------------------ *)
(** ** command pkg-diff-example: main.go                                *)
(* ------------------------------------------------------------------ *)

Module Cmd.

(** The line feed that ends the syntax message. *)
Definition newline : string := String (ascii_of_nat 10) EmptyString.

(** What a run of the command does to the outside world, in order. *)
Inductive event : Type :=
| FlagError (e : flag.failure)
                            (* flag's error line on standard error *)
| FlagUsage                 (* flag's usage text on standard error *)
| Printed (s : string)      (* fmt.Printf to standard output *)
| Opened (name : string)    (* os.Open(name) *)
| Logged (err : error)      (* log.Fatal's line on standard error *)
| Stdout (out : list byte). (* bytes WriteUnified wrote to os.Stdout *)

(** A step of the command: the events so far, and either a value to go
    on with or the status the process exited with. *)
Definition prog (A : Type) : Type := (list event * (A + Z))%type.

Definition pure {A} (x : A) : prog A := ([], inl x).

Definition andThen {A B} (m : prog A) (k : A -> prog B) : prog B :=
  match m with
  | (tr, inl x) => let (tr', r) := k x in ((tr ++ tr')%list, r)
  | (tr, inr status) => (tr, inr status)
  end.

Definition emit (e : event) : prog unit := ([e], inl tt).

(** [os.Exit(status)] does not return. *)
Definition os_Exit {A} (status : Z) : prog A := ([], inr status).

(** [log.Fatal(err)]: print, then [os.Exit(1)]. *)
Definition log_Fatal {A} (err : error) : prog A :=
  andThen (emit (Logged err)) (fun _ => os_Exit 1).

Declare Scope prog_scope.
Delimit Scope prog_scope with prog.
Notation "x <- m ;; k" := (andThen m (fun x => k))
  (at level 61, m at next level, right associativity) : prog_scope.
Notation "m ;;; k" := (andThen m (fun _ => k))
  (at level 61, right associativity) : prog_scope.

(** The exit status of a whole run: 0 when [main] returns. *)
Definition status (p : prog unit) : Z :=
  match snd p with inl _ => 0 | inr s => s end.

Definition events {A} (p : prog A) : list event := fst p.

(** [context.Context] as [main] builds it. *)
Inductive Context : Type :=
| Background
| WithTimeout (d : Z).

(** [diff.WriteOpt] as [main] builds them. *)
Inductive WriteOpt : Type :=
| Names (a b : string)
| TerminalColor.

(** The flags after [flag.Parse()], the positional arguments
    [flag.Args()] and [filepath.Base(os.Args[0])]. *)
Record invocation : Type := {
  color : bool;
  timeout : Z;
  unified : Z;
  Args : list string;
  base : string
}.

(** The flags as the [var] block declares them: [color] false,
    [timeout] 0, [unified] 3, before any argument is parsed. *)
Definition declared (base : string) : invocation :=
  {| color := false; timeout := 0; unified := 3; Args := []; base := base |}.

Definition setColor (inv : invocation) (b : bool) : invocation :=
  {| color := b; timeout := timeout inv; unified := unified inv;
     Args := Args inv; base := base inv |}.

Definition setTimeout (inv : invocation) (d : Z) : invocation :=
  {| color := color inv; timeout := d; unified := unified inv;
     Args := Args inv; base := base inv |}.

Definition setUnified (inv : invocation) (n : Z) : invocation :=
  {| color := color inv; timeout := timeout inv; unified := n;
     Args := Args inv; base := base inv |}.

Definition setArgs (inv : invocation) (args : list string) : invocation :=
  {| color := color inv; timeout := timeout inv; unified := unified inv;
     Args := args; base := base inv |}.

(** How [FlagSet.Parse] ends: the flags set and the arguments left, a
    failure, or a request for help ([-h], [-help], which are not
    declared). *)
Inductive parsed : Type :=
| Accepted (inv : invocation)
| Rejected (e : flag.failure)
| Help.

Section Main.

(** The engine is outside this file: [diff.Myers] computes an edit
    script, [WithContextSize(n).WriteUnified(os.Stdout, ab, opts...)]
    writes it and returns the count and the error. *)
Variable EditScript : Type.
Variable Myers : Context -> Adapter.diffStrings -> EditScript.
Variable WriteUnified :
  EditScript -> Z -> Adapter.diffStrings -> list WriteOpt ->
  list byte * (Z * option error).

(** The file system: [os.Open(name)] fails with an error, or the file
    scans into lines with the scanner's final [Err()]. *)
Variable fs : string -> error + (list string * option error).

(** What the [Set] methods of an int flag and of a duration flag accept:
    [strconv.ParseInt(s, 0, strconv.IntSize)] and
    [time.ParseDuration(s)], [None] when they return an error. *)
Variable ParseInt : string -> option Z.
Variable ParseDuration : string -> option Z.

Local Open Scope prog_scope.

(** [FlagSet.Parse] over the three declared flags: [parseOne] argument
    by argument; a boolean flag takes a value only after [=], the others
    after [=] or from the next argument; parsing stops at the first
    argument that is not a flag, or after [--]. *)
Fixpoint parseFlags (args : list string) (inv : invocation) : parsed :=
  match args with
  | [] => Accepted (setArgs inv [])
  | s :: rest =>
      match flag.classify s with
      | flag.NotAFlag => Accepted (setArgs inv args)
      | flag.Terminator => Accepted (setArgs inv rest)
      | flag.BadSyntax => Rejected (flag.BadFlagSyntax s)
      | flag.Flag name value =>
          if String.eqb name "color" then
            match value with
            | Some v =>
                match flag.ParseBool v with
                | Some b => parseFlags rest (setColor inv b)
                | None => Rejected (flag.InvalidBoolean v name)
                end
            | None => parseFlags rest (setColor inv true)
            end
          else if String.eqb name "timeout" then
            match value, rest with
            | Some v, _ =>
                match ParseDuration v with
                | Some d => parseFlags rest (setTimeout inv d)
                | None => Rejected (flag.InvalidValue v name)
                end
            | None, v :: rest' =>
                match ParseDuration v with
                | Some d => parseFlags rest' (setTimeout inv d)
                | None => Rejected (flag.InvalidValue v name)
                end
            | None, [] => Rejected (flag.NeedsArgument name)
            end
          else if String.eqb name "unified" then
            match value, rest with
            | Some v, _ =>
                match ParseInt v with
                | Some n => parseFlags rest (setUnified inv n)
                | None => Rejected (flag.InvalidValue v name)
                end
            | None, v :: rest' =>
                match ParseInt v with
                | Some n => parseFlags rest' (setUnified inv n)
                | None => Rejected (flag.InvalidValue v name)
                end
            | None, [] => Rejected (flag.NeedsArgument name)
            end
          else if String.eqb name "help" || String.eqb name "h" then Help
          else Rejected (flag.NotDefined name)
      end
  end.

(** [flag.Parse()] on [os.Args[1:]], with the command line's
    [ExitOnError]: help prints the usage and exits with status 0, a
    failure prints the error and the usage and exits with status 2. *)
Definition flag_Parse (base : string) (arguments : list string)
  : prog invocation :=
  match parseFlags arguments (declared base) with
  | Accepted inv => pure inv
  | Help => emit FlagUsage ;;; os_Exit 0
  | Rejected e => emit (FlagError e) ;;; emit FlagUsage ;;; os_Exit 2
  end.

(** [flag.Arg(i)]: the empty string when there is no such argument. *)
Definition flag_Arg (inv : invocation) (i : nat) : string :=
  nth i (Args inv) "".

Definition check (err : option error) : prog unit :=
  match err with
  | Some e => log_Fatal e
  | None => pure tt
  end.

Definition fileLines (name : string) : prog (list string * option error) :=
  emit (Opened name) ;;;
  match fs name with
  | inl err => pure ([], Some err)
  | inr (lines, err) => pure (lines, err)
  end.

(** [main], run as [os.Args[0] arguments...] with
    [base = filepath.Base(os.Args[0])]. *)
Definition main (base : string) (arguments : list string) : prog unit :=
  inv <- flag_Parse base arguments ;;
  (if negb (len (Args inv) =? 2) then
     emit (Printed ("syntax: " ++ base ++ " name1 name2" ++ newline)) ;;;
     os_Exit 2
   else pure tt) ;;;
  let aName := flag_Arg inv 0 in
  r <- fileLines aName ;;
  let '(aLines, err) := r in
  check err ;;;
  let bName := flag_Arg inv 1 in
  r <- fileLines bName ;;
  let '(bLines, err) := r in
  check err ;;;
  let ab := Adapter.Strings aLines bLines in
  let ctx := if negb (timeout inv =? 0) then WithTimeout (timeout inv)
             else Background in
  let e := Myers ctx ab in
  let opts := [Names aName bName] in
  let opts := if color inv then (opts ++ [TerminalColor])%list else opts in
  let '(out, (_, err)) := WriteUnified e (unified inv) ab opts in
  emit (Stdout out) ;;;
  check err.

End Main.

(** Reading [name] fails with [e]: the file does not open, or the
    scanner ends with an error. *)
Definition unreadable (fs : string -> error + (list string * option error))
  (name : string) (e : error) : Prop :=
  fs name = inl e \/ exists lines, fs name = inr (lines, Some e).

End Cmd.

(* ------------------------------------------------------------------ *)
(** ** The edit-script computer (package myers)                         *)
(* ------------------------------------------------------------------ *)

(** Package myers is imported by adapter.go and main.go but is not part
    of the sources at hand; the engine below follows the specification's
    description of it (section 4.1): Myers' search over the diagonals of
    the edit graph, a frontier per depth, greedy snakes, termination at
    the corner, backtracking through the recorded frontiers. *)

Module Myers.

(** Modelled from the spec: the sequence-pair capability the engine
    consumes (its Go interface, myers.Pair, is in a package that is not
    among the sources): two lengths and an equality on indices. *)
Record SequencePair : Type := {
  lenA : nat;
  lenB : nat;
  equal : Z -> Z -> bool
}.

(** Modelled from the spec: the operations of an edit script,
    [Keep(ai, bi)], [Delete(ai)] and [Insert(bi)]. *)
Inductive Operation : Type :=
| Keep (ai bi : Z)
| Delete (ai : Z)
| Insert (bi : Z).

Definition EditScript : Type := list Operation.

Definition isEdit (op : Operation) : bool :=
  match op with Keep _ _ => false | Delete _ | Insert _ => true end.

(** Modelled from the spec: the number of Insert and Delete operations
    of a script. *)
Definition edits (s : EditScript) : nat := List.length (filter isEdit s).

(** Modelled from the spec: the reference edit distance, by the
    recurrence of the quadratic dynamic-programming table,
    [distance eq i j] for the prefixes [A[0..i)] and [B[0..j)], with
    insertions and deletions only. *)
Fixpoint distance (eq : Z -> Z -> bool) (i : nat) : nat -> nat :=
  match i with
  | O => fun j => j
  | S i' =>
      fix row (j : nat) : nat :=
        match j with
        | O => S i'
        | S j' =>
            let edit := S (Nat.min (distance eq i' (S j')) (row j')) in
            if eq (Z.of_nat i') (Z.of_nat j')
            then Nat.min (distance eq i' j') edit
            else edit
        end
  end.

Definition editDistance (p : SequencePair) : nat :=
  distance (equal p) (lenA p) (lenB p).

(** Modelled from the spec: what [compute] reports, a script or a
    cancellation; [Exhausted] is a search that ran out of depths, which
    is proved below never to happen. *)
Inductive outcome : Type :=
| Script (s : EditScript)
| Cancelled
| Exhausted.

(** Modelled from the spec: a frontier stores, for each diagonal
    [k = x - y], the furthest [x] reached. *)
Definition frontier : Type := Z -> Z.

Definition empty : frontier := fun _ => 0.

Definition record (v : frontier) (k x : Z) : frontier :=
  fun k' => if k' =? k then x else v k'.

Section Engine.

Variable p : SequencePair.

Definition N : Z := Z.of_nat (lenA p).
Definition M : Z := Z.of_nat (lenB p).

(** Modelled from the spec: the edit graph has a diagonal edge out of
    [(x, y)] when both elements exist and are equal. *)
Definition diagonal (x y : Z) : bool :=
  (x <? N) && (y <? M) && equal p x y.

(** Modelled from the spec: follow a snake, the run of diagonal edges
    from [(x, y)], greedily. *)
Fixpoint snake (fuel : nat) (x y : Z) : Z :=
  match fuel with
  | O => x
  | S fuel' => if diagonal x y then snake fuel' (x + 1) (y + 1) else x
  end.

(** Modelled from the spec: the tie-break of the search (the search
    itself, Myers' algorithm, is in package myers, not among the
    sources).  Whether diagonal [k] at depth [d] is entered by a
    vertical move (an insertion, from diagonal [k + 1]) rather than a
    horizontal one (a deletion, from diagonal [k - 1]).  On a tie the
    deletion wins. *)
Definition vertical (prev : frontier) (d k : Z) : bool :=
  (k =? - d) || (negb (k =? d) && (prev (k - 1) <? prev (k + 1))).

Definition enter (prev : frontier) (d k : Z) : Z :=
  if vertical prev d k then prev (k + 1) else prev (k - 1) + 1.

(** Modelled from the spec: the furthest point of diagonal [k] at depth
    [d]: enter, then follow the snake. *)
Definition extend (prev : frontier) (d k : Z) : Z :=
  let x0 := enter prev d k in snake (lenA p) x0 (x0 - k).

(** Modelled from the spec: whether [x] on diagonal [k] is the
    bottom-right corner [(N, M)], where the search terminates. *)
Definition corner (x k : Z) : bool := (x =? N) && (x - k =? M).

(** Modelled from the spec: one depth of the search, the diagonals
    [k, k + 2, ...], [n] of them, each extended from the frontier [prev]
    of the depth before.  Stops as soon as the corner [(N, M)] is
    reached. *)
Fixpoint diagonals (n : nat) (d k : Z) (prev cur : frontier)
  : frontier * bool :=
  match n with
  | O => (cur, false)
  | S n' =>
      let x := extend prev d k in
      let cur' := record cur k x in
      if corner x k then (cur', true)
      else diagonals n' d (k + 2) prev cur'
  end.

Inductive found : Type :=
| Reached (trace : list frontier)
| Aborted
| NotReached.

(** Modelled from the spec: the breadth-first search, depth by depth,
    with the cancellation check at each depth.  [cancelled d] is what
    polling the cancellation signal answers at depth [d]; [trace] holds
    the frontiers of the depths done, the latest first. *)
Fixpoint search (cancelled : nat -> bool) (fuel d : nat)
  (prev : frontier) (trace : list frontier) : found :=
  match fuel with
  | O => NotReached
  | S fuel' =>
      if cancelled d then Aborted
      else
        let dz := Z.of_nat d in
        let (cur, hit) := diagonals (S d) dz (- dz) prev empty in
        if hit then Reached trace
        else search cancelled fuel' (S d) cur (cur :: trace)
  end.

(** Modelled from the spec: [n] Keep operations along a diagonal from
    [(x, y)]. *)
Fixpoint keeps (n : nat) (x y : Z) : EditScript :=
  match n with
  | O => []
  | S n' => Keep x y :: keeps n' (x + 1) (y + 1)
  end.

(** Modelled from the spec: backtracking.  Walk the recorded frontiers
    back from [(x, y)] at depth [d], the
    frontier of depth [d - 1] first, putting the operations in front of
    [acc] so that the script comes out in forward order. *)
Fixpoint backtrack (trace : list frontier) (d x y : Z) (acc : EditScript)
  : EditScript :=
  match trace with
  | [] => (keeps (Z.to_nat x) 0 0 ++ acc)%list
  | prev :: older =>
      let k := x - y in
      if vertical prev d k then
        let px := prev (k + 1) in
        let py := px - (k + 1) in
        backtrack older (d - 1) px py
          (Insert py :: keeps (Z.to_nat (x - px)) px (py + 1) ++ acc)%list
      else
        let px := prev (k - 1) in
        let py := px - (k - 1) in
        backtrack older (d - 1) px py
          (Delete px :: keeps (Z.to_nat (x - (px + 1))) (px + 1) py ++ acc)%list
  end.

(** Modelled from the spec: [compute(pair, cancelToken)], the contract
    of the edit-script computer (Myers' algorithm of package myers,
    which is not among the sources). *)
Definition compute (cancelled : nat -> bool) : outcome :=
  match search cancelled (S (lenA p + lenB p)) 0 empty [] with
  | Reached trace => Script (backtrack trace (len trace) N M [])
  | Aborted => Cancelled
  | NotReached => Exhausted
  end.

(** Paths of the edit graph from the origin: [reach d x y] when a path
    with exactly [d] horizontal and vertical edges (deletions and
    insertions) ends at [(x, y)]. *)
Inductive reach : nat -> Z -> Z -> Prop :=
| reach_origin : reach 0 0 0
| reach_keep d x y :
    reach d x y -> diagonal x y = true -> reach d (x + 1) (y + 1)
| reach_delete d x y : reach d x y -> reach (S d) (x + 1) y
| reach_insert d x y : reach d x y -> reach (S d) x (y + 1).

(** The cost of a point: the reference distance of the prefixes inside
    the grid, plus one edit for every step beyond it. *)
Definition cost (x y : Z) : Z :=
  Z.of_nat (distance (equal p) (Z.to_nat (Z.min x N)) (Z.to_nat (Z.min y M)))
  + (x - Z.min x N) + (y - Z.min y M).

(** The diagonals of depth [d]: [-d, -d + 2, ..., d]. *)
Definition inDepth (d : nat) (k : Z) : Prop :=
  exists i : nat, (i <= d)%nat /\ k = - Z.of_nat d + 2 * Z.of_nat i.

(** [furthest d v]: on every diagonal of depth [d], [v] holds the end
    of a path with [d] edits, and no such path ends further. *)
Definition furthest (d : nat) (v : frontier) : Prop :=
  (forall k, inDepth d k -> reach d (v k) (v k - k)) /\
  (forall x y, reach d x y -> x <= v (x - y)).

(** What the search holds when it starts depth [d]. *)
Definition ready (d : nat) (prev : frontier) : Prop :=
  match d with
  | O => prev = empty
  | S d' => furthest d' prev
  end.

(** A script that is a path of the edit graph from [(x, y)] to the
    corner: Keep along diagonal edges, Delete and Insert inside the
    grid, each operation naming the index it consumes. *)
Inductive follows : EditScript -> Z -> Z -> Prop :=
| follows_nil : follows [] N M
| follows_keep x y s :
    diagonal x y = true -> follows s (x + 1) (y + 1) ->
    follows (Keep x y :: s) x y
| follows_delete x y s :
    0 <= x < N -> follows s (x + 1) y -> follows (Delete x :: s) x y
| follows_insert x y s :
    0 <= y < M -> follows s x (y + 1) -> follows (Insert y :: s) x y.

(** The trace the search holds when it starts depth [d] with the
    frontier [prev]: the frontiers of the depths [d - 1, ..., 0], each
    the extension of the one before. *)
Fixpoint recorded (d : nat) (prev : frontier) (trace : list frontier)
  : Prop :=
  match d with
  | O => prev = empty /\ trace = []
  | S d' =>
      exists prev' older,
        trace = prev :: older /\ recorded d' prev' older /\
        ready d' prev' /\
        forall k, inDepth d' k -> prev k = extend prev' (Z.of_nat d') k
  end.

End Engine.

(** Two sequences of strings as a sequence pair. *)
Definition ofStrings (a b : list string) : SequencePair :=
  {| lenA := List.length a;
     lenB := List.length b;
     equal := fun ai bi =>
       String.eqb (nth (Z.to_nat ai) a "") (nth (Z.to_nat bi) b "") |}.

Definition never : nat -> bool := fun _ => false.

End Myers.


(* ------------------------------------------------------------------ *)
(** ** Sequences of calls on a pair                                     *)
(* ------------------------------------------------------------------ *)

Module Calls.

Import Adapter.

(** One call of a method of the [DiffWrite] method set, with its
    arguments; [W] is the type of the sinks handed to the writes. *)
Inductive call (W : Type) : Type :=
| CallLenA
| CallLenB
| CallEqual (ai bi : Z)
| CallWriteATo (w : W) (i : Z)
| CallWriteBTo (w : W) (i : Z).
Arguments CallLenA {W}.
Arguments CallLenB {W}.
Arguments CallEqual {W} ai bi.
Arguments CallWriteATo {W} w i.
Arguments CallWriteBTo {W} w i.

(** The struct behind the receiver after one call; a panic of the call
    is recovered by the caller, who keeps the pair. *)
Definition perform {P W} `{DiffWrite P} `{io.Writer W} (c : call W) (ab : P)
  : P :=
  match c with
  | CallLenA => leaves LenA ab
  | CallLenB => leaves LenB ab
  | CallEqual ai bi => leaves (Equal ai bi) ab
  | CallWriteATo w i => leaves (WriteATo w i) ab
  | CallWriteBTo w i => leaves (WriteBTo w i) ab
  end.

(** The struct after a sequence of calls, the first call first. *)
Definition performAll {P W} `{DiffWrite P} `{io.Writer W}
  (cs : list (call W)) (ab : P) : P :=
  fold_left (fun s c => perform c s) cs ab.

(** A method that never writes to its receiver. *)
Definition readonly {S A} (m : method S A) : Prop :=
  forall s, leaves m s = s.

(** Writing the [n] elements [a[i], a[i+1], ...] of a pair to one sink,
    one [WriteATo] after the other, each on the sink the call before
    left; the counts add up, and the first error of the sink (or the
    first panic) ends the run. *)
Fixpoint writeRunA {P W} `{DiffWrite P} `{io.Writer W}
  (n : nat) (i : Z) (w : W) (ab : P) : result (W * (Z * option error)) :=
  match n with
  | O => Ok (w, (0, None))
  | S n' =>
      match returns (WriteATo w i) ab with
      | Panic q => Panic q
      | Ok (w', (c, Some e)) => Ok (w', (c, Some e))
      | Ok (w', (c, None)) =>
          match writeRunA n' (i + 1) w' (leaves (WriteATo w i) ab) with
          | Panic q => Panic q
          | Ok (w'', (c', e)) => Ok (w'', (c + c', e))
          end
      end
  end.

End Calls.

(* ================================================================== *)
(** * Properties of the adapters                                        *)
(* ================================================================== *)

Module AdapterSpec.

Import Adapter Calls.

(** *** Indexing *)

Lemma index_in_range {A} (s : list A) (i : Z) :
  0 <= i < len s ->
  exists x, nth_error s (Z.to_nat i) = Some x /\ index s i = Ok x.
Proof.
  intros Hi. unfold index, len in *.
  destruct (i <? 0) eqn:E1; [apply Z.ltb_lt in E1; lia|].
  destruct (Z.of_nat (List.length s) <=? i) eqn:E2;
    [apply Z.leb_le in E2; lia|].
  simpl. destruct (nth_error s (Z.to_nat i)) as [x|] eqn:E.
  - exists x. split; reflexivity.
  - apply nth_error_None in E. lia.
Qed.

Lemma index_out_of_range {A} (s : list A) (i : Z) :
  ~ (0 <= i < len s) -> index s i = Panic (IndexOutOfRange i (len s)).
Proof.
  intros Hi. unfold index, len in *.
  destruct (i <? 0) eqn:E1; [reflexivity|].
  destruct (Z.of_nat (List.length s) <=? i) eqn:E2; [reflexivity|].
  apply Z.ltb_ge in E1. apply Z.leb_gt in E2. lia.
Qed.

Lemma index_is_ok {A} (s : list A) (i : Z) :
  is_ok (index s i) = true <-> 0 <= i < len s.
Proof.
  split.
  - intros H. destruct (Z.le_gt_cases 0 i) as [H0|H0];
      [destruct (Z.lt_ge_cases i (len s)) as [H1|H1]; [lia|]|];
      rewrite index_out_of_range in H by lia; discriminate.
  - intros H. destruct (index_in_range s i H) as (x & _ & ->). reflexivity.
Qed.

Lemma bytes_Equal_iff (a b : list byte) : bytes.Equal a b = true <-> a = b.
Proof.
  revert b. induction a as [|x a IH]; intros [|y b]; simpl;
    try (split; [discriminate|discriminate]); [tauto|].
  rewrite andb_true_iff, IH. split.
  - intros [Hx ->]. apply Byte.byte_dec_bl in Hx. now subst.
  - intros [= -> ->]. split; [now apply Byte.byte_dec_lb|reflexivity].
Qed.

(** *** Read-only methods *)

Lemma readonly_ret {S A} (x : A) : readonly (@ret S A x).
Proof. intros s. reflexivity. Qed.

Lemma readonly_field {S F} (f : S -> F) : readonly (field f).
Proof. intros s. reflexivity. Qed.

Lemma readonly_eval {S A} (r : result A) : readonly (@eval S A r).
Proof. intros s. reflexivity. Qed.

Lemma readonly_bind {S A B} (m : method S A) (k : A -> method S B) :
  readonly m -> (forall x, readonly (k x)) -> readonly (bind m k).
Proof.
  intros Hm Hk s. unfold leaves, bind. specialize (Hm s). unfold leaves in Hm.
  destruct (m s) as [s' [x|q]]; simpl in *; subst s'.
  - apply Hk.
  - reflexivity.
Qed.

Create HintDb readonly.
#[export] Hint Resolve readonly_ret readonly_field readonly_eval : readonly.

Ltac readonly :=
  repeat (apply readonly_bind; [|intro]); auto with readonly.

Lemma readonly_atA i : readonly (atA i).
Proof. unfold atA. readonly. Qed.

Lemma readonly_atB i : readonly (atB i).
Proof. unfold atB. readonly. Qed.

#[export] Hint Resolve readonly_atA readonly_atB : readonly.

(** Every method of the three method sets is read-only. *)
Lemma readonly_diffStrings_reads (ai bi : Z) :
  readonly diffStrings_LenA /\ readonly diffStrings_LenB /\
  readonly (diffStrings_Equal ai bi).
Proof.
  unfold diffStrings_LenA, diffStrings_LenB, diffStrings_Equal.
  repeat split; readonly.
Qed.

Lemma readonly_diffStrings_writes {W} `{io.Writer W} (w : W) (i : Z) :
  readonly (diffStrings_WriteATo w i) /\ readonly (diffStrings_WriteBTo w i).
Proof.
  unfold diffStrings_WriteATo, diffStrings_WriteBTo. repeat split; readonly.
Qed.

Lemma readonly_diffBytes_reads (ai bi : Z) :
  readonly diffBytes_LenA /\ readonly diffBytes_LenB /\
  readonly (diffBytes_Equal ai bi).
Proof.
  unfold diffBytes_LenA, diffBytes_LenB, diffBytes_Equal.
  repeat split; readonly.
Qed.

Lemma readonly_diffBytes_writes {W} `{io.Writer W} (w : W) (i : Z) :
  readonly (diffBytes_WriteATo w i) /\ readonly (diffBytes_WriteBTo w i).
Proof.
  unfold diffBytes_WriteATo, diffBytes_WriteBTo. repeat split; readonly.
Qed.

Lemma readonly_diffSlices_reads (ai bi : Z) :
  readonly diffSlices_LenA /\ readonly diffSlices_LenB /\
  readonly (diffSlices_Equal ai bi).
Proof.
  unfold diffSlices_LenA, diffSlices_LenB, diffSlices_Equal.
  repeat split; readonly.
Qed.

Lemma readonly_diffSlices_writes {W} `{io.Writer W} Sprint (w : W) (i : Z) :
  readonly (diffSlices_WriteATo Sprint w i) /\
  readonly (diffSlices_WriteBTo Sprint w i).
Proof.
  unfold diffSlices_WriteATo, diffSlices_WriteBTo. repeat split; readonly.
Qed.

(** So a call, and a sequence of calls, leaves the struct as it was. *)
Lemma perform_diffStrings {W} `{io.Writer W} (c : call W) (ab : diffStrings) :
  perform (H:=diffStrings_DiffWrite) c ab = ab.
Proof.
  destruct c as [| |ai bi|w i|w i]; simpl.
  - apply (readonly_diffStrings_reads 0 0).
  - apply (readonly_diffStrings_reads 0 0).
  - apply (readonly_diffStrings_reads ai bi).
  - apply (readonly_diffStrings_writes w i).
  - apply (readonly_diffStrings_writes w i).
Qed.

Lemma performAll_diffStrings {W} `{io.Writer W}
  (cs : list (call W)) (ab : diffStrings) :
  performAll (H:=diffStrings_DiffWrite) cs ab = ab.
Proof.
  unfold performAll. induction cs as [|c cs IH]; simpl.
  - reflexivity.
  - rewrite perform_diffStrings. exact IH.
Qed.

Lemma perform_diffBytes {W} `{io.Writer W} (c : call W) (ab : diffBytes) :
  perform (H:=diffBytes_DiffWrite) c ab = ab.
Proof.
  destruct c as [| |ai bi|w i|w i]; simpl.
  - apply (readonly_diffBytes_reads 0 0).
  - apply (readonly_diffBytes_reads 0 0).
  - apply (readonly_diffBytes_reads ai bi).
  - apply (readonly_diffBytes_writes w i).
  - apply (readonly_diffBytes_writes w i).
Qed.

Lemma performAll_diffBytes {W} `{io.Writer W}
  (cs : list (call W)) (ab : diffBytes) :
  performAll (H:=diffBytes_DiffWrite) cs ab = ab.
Proof.
  unfold performAll. induction cs as [|c cs IH]; simpl.
  - reflexivity.
  - rewrite perform_diffBytes. exact IH.
Qed.

Lemma perform_diffSlices {W} `{io.Writer W} Sprint
  (c : call W) (ab : diffSlices) :
  perform (H:=diffSlices_DiffWrite Sprint) c ab = ab.
Proof.
  destruct c as [| |ai bi|w i|w i]; simpl.
  - apply (readonly_diffSlices_reads 0 0).
  - apply (readonly_diffSlices_reads 0 0).
  - apply (readonly_diffSlices_reads ai bi).
  - apply (readonly_diffSlices_writes Sprint w i).
  - apply (readonly_diffSlices_writes Sprint w i).
Qed.

Lemma performAll_diffSlices {W} `{io.Writer W} Sprint
  (cs : list (call W)) (ab : diffSlices) :
  performAll (H:=diffSlices_DiffWrite Sprint) cs ab = ab.
Proof.
  unfold performAll. induction cs as [|c cs IH]; simpl.
  - reflexivity.
  - rewrite perform_diffSlices. exact IH.
Qed.

(** *** What the methods return *)

Ltac run_method :=
  unfold returns, leaves,
    diffStrings_LenA, diffStrings_LenB, diffStrings_Equal,
    diffStrings_WriteATo, diffStrings_WriteBTo,
    diffBytes_LenA, diffBytes_LenB, diffBytes_Equal,
    diffBytes_WriteATo, diffBytes_WriteBTo,
    diffSlices_LenA, diffSlices_LenB, diffSlices_Equal,
    diffSlices_WriteATo, diffSlices_WriteBTo, atA, atB,
    bind, field, eval, ret; simpl.

Lemma diffStrings_Equal_returns (a b : list string) (ai bi : Z) :
  returns (diffStrings_Equal ai bi) (Strings a b) =
  match index a ai with
  | Ok x => match index b bi with
            | Ok y => Ok (String.eqb x y)
            | Panic q => Panic q
            end
  | Panic q => Panic q
  end.
Proof.
  run_method. destruct (index a ai); [destruct (index b bi)|]; reflexivity.
Qed.

Lemma diffBytes_Equal_returns (a b : list (list byte)) (ai bi : Z) :
  returns (diffBytes_Equal ai bi) (Bytes a b) =
  match index a ai with
  | Ok x => match index b bi with
            | Ok y => Ok (bytes.Equal x y)
            | Panic q => Panic q
            end
  | Panic q => Panic q
  end.
Proof.
  run_method. destruct (index a ai); [destruct (index b bi)|]; reflexivity.
Qed.

Lemma diffStrings_Write_returns {W} `{io.Writer W} (w : W)
  (a b : list string) (i : Z) :
  returns (diffStrings_WriteATo w i) (Strings a b) =
    match index a i with
    | Ok x => Ok (io.WriteString w x)
    | Panic q => Panic q
    end /\
  returns (diffStrings_WriteBTo w i) (Strings a b) =
    match index b i with
    | Ok y => Ok (io.WriteString w y)
    | Panic q => Panic q
    end.
Proof.
  run_method. split; [destruct (index a i)|destruct (index b i)]; reflexivity.
Qed.

Lemma diffBytes_Write_returns {W} `{io.Writer W} (w : W)
  (a b : list (list byte)) (i : Z) :
  returns (diffBytes_WriteATo w i) (Bytes a b) =
    match index a i with
    | Ok x => Ok (io.Write w x)
    | Panic q => Panic q
    end /\
  returns (diffBytes_WriteBTo w i) (Bytes a b) =
    match index b i with
    | Ok y => Ok (io.Write w y)
    | Panic q => Panic q
    end.
Proof.
  run_method. split; [destruct (index a i)|destruct (index b i)]; reflexivity.
Qed.

(** *** Slices *)

Lemma Kind_eqb_Slice (k : reflect.Kind) :
  reflect.Kind_eqb k reflect.Slice = true <-> k = reflect.Slice.
Proof. destruct k; simpl; split; congruence. Qed.

Lemma Slices_of_slices DeepEqual (a b : reflect.any) equal :
  isSlice a = true -> isSlice b = true ->
  Slices DeepEqual a b equal =
  Ok {| diffSlices_a := reflect.Holding a;
        diffSlices_b := reflect.Holding b;
        diffSlices_eq :=
          match equal with None => DeepEqual | Some f => f end |}.
Proof.
  destruct a as [|ta ra ea]; [discriminate|].
  destruct b as [|tb rb eb]; [discriminate|].
  simpl. intros Ha Hb. unfold Slices, notSlice. simpl.
  rewrite Ha, Hb. reflexivity.
Qed.

Lemma Slices_not_of_slices DeepEqual (a b : reflect.any) equal :
  isSlice a = false \/ isSlice b = false ->
  is_ok (Slices DeepEqual a b equal) = false.
Proof.
  unfold Slices, notSlice. intros H.
  destruct a as [|ta ra ea]; [reflexivity|].
  destruct b as [|tb rb eb]; simpl in *;
    destruct (reflect.Kind_eqb (reflect.kind ta) reflect.Slice); simpl;
    try reflexivity.
  destruct (reflect.Kind_eqb (reflect.kind tb) reflect.Slice); simpl;
    [destruct H; discriminate|reflexivity].
Qed.

(** The descriptive error is what a call with two typed arguments, or
    with a typed first argument that is not a slice, panics with. *)
Lemma Slices_descriptive_error DeepEqual (a b : reflect.any) equal :
  a <> reflect.untyped_nil ->
  isSlice a = false \/ (b <> reflect.untyped_nil /\ isSlice b = false) ->
  Slices DeepEqual a b equal = Panic (ErrorValue (nonSliceError a b)).
Proof.
  unfold Slices, notSlice.
  destruct a as [|ta ra ea]; [congruence|]. intros _. simpl.
  destruct (reflect.Kind_eqb (reflect.kind ta) reflect.Slice); simpl.
  - intros [H|[Hb H]]; [discriminate|].
    destruct b as [|tb rb eb]; [congruence|]. simpl in *. rewrite H.
    reflexivity.
  - reflexivity.
Qed.

Lemma Slices_inv DeepEqual (a b : reflect.any) equal ab :
  Slices DeepEqual a b equal = Ok ab ->
  isSlice a = true /\ isSlice b = true /\
  ab = {| diffSlices_a := reflect.Holding a;
          diffSlices_b := reflect.Holding b;
          diffSlices_eq :=
            match equal with None => DeepEqual | Some f => f end |}.
Proof.
  intros H.
  destruct (isSlice a) eqn:Ha; [destruct (isSlice b) eqn:Hb|].
  - rewrite Slices_of_slices in H by assumption. injection H as <-. auto.
  - pose proof (Slices_not_of_slices DeepEqual a b equal (or_intror Hb)) as E.
    rewrite H in E. discriminate.
  - pose proof (Slices_not_of_slices DeepEqual a b equal (or_introl Ha)) as E.
    rewrite H in E. discriminate.
Qed.

Lemma atA_returns (a b : reflect.any) eq (i : Z) :
  isSlice a = true ->
  returns (atA i)
    {| diffSlices_a := reflect.Holding a; diffSlices_b := reflect.Holding b;
       diffSlices_eq := eq |} =
  match index (elements a) i with
  | Ok x => Ok x
  | Panic _ => Panic (Message "reflect: slice index out of range")
  end.
Proof.
  destruct a as [|ta ra ea]; [discriminate|]. simpl. intros Ha.
  apply Kind_eqb_Slice in Ha. run_method. rewrite Ha. simpl.
  destruct (index ea i); reflexivity.
Qed.

Lemma atB_returns (a b : reflect.any) eq (i : Z) :
  isSlice b = true ->
  returns (atB i)
    {| diffSlices_a := reflect.Holding a; diffSlices_b := reflect.Holding b;
       diffSlices_eq := eq |} =
  match index (elements b) i with
  | Ok x => Ok x
  | Panic _ => Panic (Message "reflect: slice index out of range")
  end.
Proof.
  destruct b as [|tb rb eb]; [discriminate|]. simpl. intros Hb.
  apply Kind_eqb_Slice in Hb. run_method. rewrite Hb. simpl.
  destruct (index eb i); reflexivity.
Qed.

Lemma bind_returns {S A B} (m : method S A) (k : A -> method S B) (s : S) :
  readonly m ->
  returns (bind m k) s =
  match returns m s with
  | Ok x => returns (k x) s
  | Panic q => Panic q
  end.
Proof.
  intros Hm. specialize (Hm s). unfold returns, leaves, bind in *.
  destruct (m s) as [s' [x|q]]; simpl in *; subst; reflexivity.
Qed.

(** *** The claims about the adapters *)

(** C4.  The pair [Strings(a, b)] reports [LenA() = len(a)] and
    [LenB() = len(b)], and for in-range indices [Equal(ai, bi)] returns
    true exactly when [a[ai]] and [b[bi]] are the same string; the pair
    [Bytes(a, b)] does the same with equality of the byte slices. *)
Theorem C4_Strings_Bytes_len_equal :
  (forall a b : list string,
      returns LenA (Strings a b) = Ok (len a) /\
      returns LenB (Strings a b) = Ok (len b) /\
      forall ai bi, 0 <= ai < len a -> 0 <= bi < len b ->
        exists x y r,
          nth_error a (Z.to_nat ai) = Some x /\
          nth_error b (Z.to_nat bi) = Some y /\
          returns (Equal ai bi) (Strings a b) = Ok r /\
          (r = true <-> x = y)) /\
  (forall a b : list (list byte),
      returns LenA (Bytes a b) = Ok (len a) /\
      returns LenB (Bytes a b) = Ok (len b) /\
      forall ai bi, 0 <= ai < len a -> 0 <= bi < len b ->
        exists x y r,
          nth_error a (Z.to_nat ai) = Some x /\
          nth_error b (Z.to_nat bi) = Some y /\
          returns (Equal ai bi) (Bytes a b) = Ok r /\
          (r = true <-> x = y)).
Proof.
  split; intros a b; (split; [reflexivity|split; [reflexivity|]]);
    intros ai bi Ha Hb;
    destruct (index_in_range a ai Ha) as (x & Hx & Ex);
    destruct (index_in_range b bi Hb) as (y & Hy & Ey);
    exists x, y; simpl.
  - exists (String.eqb x y). rewrite diffStrings_Equal_returns, Ex, Ey.
    repeat split; auto; apply String.eqb_eq.
  - exists (bytes.Equal x y). rewrite diffBytes_Equal_returns, Ex, Ey.
    repeat split; auto; apply bytes_Equal_iff.
Qed.

Lemma C4_witness :
  exists x y r,
    nth_error ["a"; "b"] (Z.to_nat 1) = Some x /\
    nth_error ["b"] (Z.to_nat 0) = Some y /\
    returns (Equal 1 0) (Strings ["a"; "b"] ["b"]) = Ok r /\
    (r = true <-> x = y).
Proof.
  apply (proj1 C4_Strings_Bytes_len_equal ["a"; "b"] ["b"]);
    unfold len; simpl; lia.
Defined.

(** C5.  For an in-range index, [WriteATo(w, i)] on a Strings pair is
    [io.WriteString(w, a[i])] and on a Bytes pair is [w.Write(a[i])]: the
    element itself goes to the sink, in one call, and what the sink
    returns (count and error) is returned; [WriteBTo] does the same over
    [b].  [io.WriteString] hands the string to the sink's own
    [WriteString], or its bytes to [Write]; so a buffer sink grows by
    exactly the bytes of the element. *)
Theorem C5_write_hands_element_to_sink :
  (forall W (HW : io.Writer W) (w : W) (a b : list string) (i : Z),
      (0 <= i < len a ->
       exists x, nth_error a (Z.to_nat i) = Some x /\
         returns (WriteATo w i) (Strings a b) = Ok (io.WriteString w x)) /\
      (0 <= i < len b ->
       exists y, nth_error b (Z.to_nat i) = Some y /\
         returns (WriteBTo w i) (Strings a b) = Ok (io.WriteString w y))) /\
  (forall W (HW : io.Writer W) (w : W) (a b : list (list byte)) (i : Z),
      (0 <= i < len a ->
       exists x, nth_error a (Z.to_nat i) = Some x /\
         returns (WriteATo w i) (Bytes a b) = Ok (io.Write w x)) /\
      (0 <= i < len b ->
       exists y, nth_error b (Z.to_nat i) = Some y /\
         returns (WriteBTo w i) (Bytes a b) = Ok (io.Write w y))) /\
  (forall W (HW : io.Writer W) (w : W) (s : string),
      io.WriteString w s =
      match io.StringWriter with
      | Some ws => ws w s
      | None => io.Write w (list_byte_of_string s)
      end) /\
  (forall (buf : bytes.Buffer) (s : string) (q : list byte),
      io.WriteString buf s =
        ((buf ++ list_byte_of_string s)%list,
         (len (list_byte_of_string s), None)) /\
      io.Write buf q = ((buf ++ q)%list, (len q, None))).
Proof.
  split; [|split; [|split]].
  - intros W HW w a b i. simpl.
    destruct (diffStrings_Write_returns w a b i) as [EA EB].
    split; intros Hi;
      [destruct (index_in_range a i Hi) as (x & Hx & Ex)
      |destruct (index_in_range b i Hi) as (x & Hx & Ex)];
      exists x; (split; [exact Hx|]).
    + rewrite EA, Ex. reflexivity.
    + rewrite EB, Ex. reflexivity.
  - intros W HW w a b i. simpl.
    destruct (diffBytes_Write_returns w a b i) as [EA EB].
    split; intros Hi;
      [destruct (index_in_range a i Hi) as (x & Hx & Ex)
      |destruct (index_in_range b i Hi) as (x & Hx & Ex)];
      exists x; (split; [exact Hx|]).
    + rewrite EA, Ex. reflexivity.
    + rewrite EB, Ex. reflexivity.
  - reflexivity.
  - intros buf s q. split; reflexivity.
Qed.

Lemma C5_witness :
  exists x, nth_error ["a"; "bc"] (Z.to_nat 1) = Some x /\
    returns (WriteATo (list_byte_of_string ">") 1) (Strings ["a"; "bc"] [])
    = Ok (io.WriteString (list_byte_of_string ">") x).
Proof.
  apply (proj1 (proj1 C5_write_hands_element_to_sink
                  bytes.Buffer _ (list_byte_of_string ">") ["a"; "bc"] [] 1)).
  unfold len; simpl; lia.
Defined.

(** C9.  [Equal], [WriteATo] and [WriteBTo] of a Strings or Bytes pair
    return (do not panic) exactly when their indices are in range:
    [0 <= ai < LenA()] and, for [Equal], [0 <= bi < LenB()]. *)
Theorem C9_defined_exactly_in_range :
  (forall (a b : list string) (ai bi : Z),
      is_ok (returns (Equal ai bi) (Strings a b)) = true <->
      (0 <= ai < len a /\ 0 <= bi < len b)) /\
  (forall (a b : list (list byte)) (ai bi : Z),
      is_ok (returns (Equal ai bi) (Bytes a b)) = true <->
      (0 <= ai < len a /\ 0 <= bi < len b)) /\
  (forall W (HW : io.Writer W) (w : W) (a b : list string) (i : Z),
      (is_ok (returns (WriteATo w i) (Strings a b)) = true <->
       0 <= i < len a) /\
      (is_ok (returns (WriteBTo w i) (Strings a b)) = true <->
       0 <= i < len b)) /\
  (forall W (HW : io.Writer W) (w : W) (a b : list (list byte)) (i : Z),
      (is_ok (returns (WriteATo w i) (Bytes a b)) = true <->
       0 <= i < len a) /\
      (is_ok (returns (WriteBTo w i) (Bytes a b)) = true <->
       0 <= i < len b)) /\
  (forall a b : list string,
      returns LenA (Strings a b) = Ok (len a) /\
      returns LenB (Strings a b) = Ok (len b)) /\
  (forall a b : list (list byte),
      returns LenA (Bytes a b) = Ok (len a) /\
      returns LenB (Bytes a b) = Ok (len b)).
Proof.
  repeat match goal with |- _ /\ _ => split end.
  - intros a b ai bi. simpl. rewrite diffStrings_Equal_returns.
    rewrite <- (index_is_ok a ai), <- (index_is_ok b bi).
    destruct (index a ai); [destruct (index b bi)|]; simpl;
      intuition congruence.
  - intros a b ai bi. simpl. rewrite diffBytes_Equal_returns.
    rewrite <- (index_is_ok a ai), <- (index_is_ok b bi).
    destruct (index a ai); [destruct (index b bi)|]; simpl;
      intuition congruence.
  - intros W HW w a b i. simpl.
    destruct (diffStrings_Write_returns w a b i) as [-> ->].
    rewrite <- (index_is_ok a i), <- (index_is_ok b i).
    destruct (index a i), (index b i); simpl; intuition congruence.
  - intros W HW w a b i. simpl.
    destruct (diffBytes_Write_returns w a b i) as [-> ->].
    rewrite <- (index_is_ok a i), <- (index_is_ok b i).
    destruct (index a i), (index b i); simpl; intuition congruence.
  - intros a b. split; reflexivity.
  - intros a b. split; reflexivity.
Qed.

(** C7.  No sequence of calls of [LenA], [LenB], [Equal], [WriteATo],
    [WriteBTo] on a pair returned by [Strings], [Bytes] or [Slices]
    changes the pair: the sequences [a] and [b] it holds are afterwards
    what they were, whether the calls returned or panicked. *)
Theorem C7_calls_leave_sequences_unchanged :
  (forall W (HW : io.Writer W) (cs : list (call W)) (a b : list string),
      performAll cs (Strings a b) = Strings a b /\
      diffStrings_a (performAll cs (Strings a b)) = a /\
      diffStrings_b (performAll cs (Strings a b)) = b) /\
  (forall W (HW : io.Writer W) (cs : list (call W)) (a b : list (list byte)),
      performAll cs (Bytes a b) = Bytes a b /\
      diffBytes_a (performAll cs (Bytes a b)) = a /\
      diffBytes_b (performAll cs (Bytes a b)) = b) /\
  (forall W (HW : io.Writer W) DeepEqual Sprint (cs : list (call W))
          (a b : reflect.any) equal (ab : diffSlices),
      Slices DeepEqual a b equal = Ok ab ->
      let ab' := performAll (H := diffSlices_DiffWrite Sprint) cs ab in
      ab' = ab /\
      diffSlices_a ab' = reflect.ValueOf a /\
      diffSlices_b ab' = reflect.ValueOf b).
Proof.
  split; [|split].
  - intros. rewrite performAll_diffStrings. auto.
  - intros. rewrite performAll_diffBytes. auto.
  - intros W HW DeepEqual Sprint cs a b equal ab H ab'. subst ab'.
    rewrite performAll_diffSlices.
    apply Slices_inv in H. destruct H as (Ha & Hb & ->).
    destruct a, b; try discriminate. auto.
Qed.

Lemma C7_witness :
  let int := {| reflect.kind := reflect.Int; reflect.str := "int" |} in
  let ints := {| reflect.kind := reflect.Slice; reflect.str := "[]int" |} in
  let a := reflect.dyn ints 0 [reflect.dyn int 7 []] in
  let ab := {| diffSlices_a := reflect.Holding a;
               diffSlices_b := reflect.Holding a;
               diffSlices_eq := fun _ _ => true |} in
  let ab' :=
    performAll (H := diffSlices_DiffWrite (fun _ => []))
      [CallEqual 0 0; CallWriteATo ([] : bytes.Buffer) 3; CallLenB] ab in
  ab' = ab /\
  diffSlices_a ab' = reflect.ValueOf a /\
  diffSlices_b ab' = reflect.ValueOf a.
Proof.
  intros int ints a ab.
  apply (proj2 (proj2 C7_calls_leave_sequences_unchanged)
           bytes.Buffer _ (fun _ _ => true) (fun _ => [])
           [CallEqual 0 0; CallWriteATo ([] : bytes.Buffer) 3; CallLenB]
           a a None ab).
  reflexivity.
Defined.

(** C1.  For slice values [a] and [b], [Slices(a, b, nil)] returns a
    pair, and for in-range indices its [Equal(ai, bi)] returns what
    [reflect.DeepEqual] returns on element [ai] of [a] and element [bi]
    of [b]. *)
Theorem C1_Slices_default_is_DeepEqual
  (DeepEqual : reflect.any -> reflect.any -> bool)
  (Sprint : reflect.any -> list byte) (a b : reflect.any) :
  isSlice a = true -> isSlice b = true ->
  exists ab,
    Slices DeepEqual a b None = Ok ab /\
    forall ai bi, 0 <= ai < len (elements a) -> 0 <= bi < len (elements b) ->
      exists x y,
        nth_error (elements a) (Z.to_nat ai) = Some x /\
        nth_error (elements b) (Z.to_nat bi) = Some y /\
        returns (Equal (DiffWrite := diffSlices_DiffWrite Sprint) ai bi) ab
        = Ok (DeepEqual x y).
Proof.
  intros Ha Hb. eexists. split; [apply Slices_of_slices; assumption|].
  intros ai bi Hai Hbi.
  destruct (index_in_range _ ai Hai) as (x & Hx & Ex).
  destruct (index_in_range _ bi Hbi) as (y & Hy & Ey).
  exists x, y. repeat split; try assumption.
  change (Equal (DiffWrite := diffSlices_DiffWrite Sprint) ai bi)
    with (diffSlices_Equal ai bi).
  unfold diffSlices_Equal.
  rewrite bind_returns by readonly.
  unfold returns at 1, field. cbv beta iota delta [snd].
  rewrite bind_returns by readonly.
  rewrite atA_returns, Ex by assumption. cbv beta iota.
  rewrite bind_returns by readonly.
  rewrite atB_returns, Ey by assumption.
  reflexivity.
Qed.

Lemma C1_witness :
  let int := {| reflect.kind := reflect.Int; reflect.str := "int" |} in
  let ints := {| reflect.kind := reflect.Slice; reflect.str := "[]int" |} in
  let a := reflect.dyn ints 0 [reflect.dyn int 1 []; reflect.dyn int 2 []] in
  let b := reflect.dyn ints 0 [reflect.dyn int 2 []] in
  let deq := fun x y : reflect.any =>
    match x, y with
    | reflect.dyn _ n _, reflect.dyn _ m _ => n =? m
    | _, _ => false
    end in
  exists ab,
    Slices deq a b None = Ok ab /\
    forall ai bi, 0 <= ai < len (elements a) -> 0 <= bi < len (elements b) ->
      exists x y,
        nth_error (elements a) (Z.to_nat ai) = Some x /\
        nth_error (elements b) (Z.to_nat bi) = Some y /\
        returns (Equal (DiffWrite := diffSlices_DiffWrite (fun _ => [])) ai bi)
          ab = Ok (deq x y).
Proof.
  intros int ints a b deq.
  apply (C1_Slices_default_is_DeepEqual deq (fun _ => []) a b);
    reflexivity.
Defined.

(** C2, at a nil argument.  [Slices(nil, b, equal)] panics inside
    [ab.a.Type()], with reflect's error for a call on the zero Value,
    whatever [b] and [equal] are; the check that would panic with the
    error naming the argument types is not reached.  The same happens at
    a nil [b] after a slice [a]. *)
Theorem C2_nil_argument_panics_in_reflect :
  forall DeepEqual (a b : reflect.any) equal,
    Slices DeepEqual reflect.untyped_nil b equal
    = Panic (ValueError "reflect.Value.Type" "invalid") /\
    (isSlice a = true ->
     Slices DeepEqual a reflect.untyped_nil equal
     = Panic (ValueError "reflect.Value.Type" "invalid")) /\
    Panic (A := diffSlices) (ValueError "reflect.Value.Type" "invalid")
    <> Panic (ErrorValue (nonSliceError reflect.untyped_nil b)).
Proof.
  intros DeepEqual a b equal. split; [reflexivity|split].
  - destruct a as [|ta ra ea]; [discriminate|]. simpl. intros Ha.
    unfold Slices, notSlice. simpl. rewrite Ha. reflexivity.
  - discriminate.
Qed.

(** C10.  On a pair built by [Slices], [WriteATo(w, i)] for an in-range
    [i] returns what [fmt.Fprint(w, x)] returns for element [x] of [a]:
    the default formatting handed to the sink, with Fprint's count and
    error; the comparator passed to [Slices] plays no part.  [WriteBTo]
    does the same over [b]. *)
Theorem C10_Slices_write_is_Fprint
  (DeepEqual : reflect.any -> reflect.any -> bool)
  (Sprint : reflect.any -> list byte)
  W (HW : io.Writer W) (w : W) (a b : reflect.any) equal (ab : diffSlices)
  (i : Z) :
  Slices DeepEqual a b equal = Ok ab ->
  (0 <= i < len (elements a) ->
   exists x, nth_error (elements a) (Z.to_nat i) = Some x /\
     returns (WriteATo (DiffWrite := diffSlices_DiffWrite Sprint) w i) ab
     = Ok (fmt.Fprint Sprint w x) /\
     fmt.Fprint Sprint w x = io.Write w (Sprint x)) /\
  (0 <= i < len (elements b) ->
   exists y, nth_error (elements b) (Z.to_nat i) = Some y /\
     returns (WriteBTo (DiffWrite := diffSlices_DiffWrite Sprint) w i) ab
     = Ok (fmt.Fprint Sprint w y) /\
     fmt.Fprint Sprint w y = io.Write w (Sprint y)).
Proof.
  intros H. apply Slices_inv in H. destruct H as (Ha & Hb & ->).
  split; intros Hi;
    destruct (index_in_range _ i Hi) as (x & Hx & Ex);
    exists x; (split; [exact Hx|split; [|reflexivity]]).
  - change (WriteATo (DiffWrite := diffSlices_DiffWrite Sprint) w i)
      with (diffSlices_WriteATo Sprint w i).
    unfold diffSlices_WriteATo. rewrite bind_returns by readonly.
    rewrite atA_returns, Ex by assumption. reflexivity.
  - change (WriteBTo (DiffWrite := diffSlices_DiffWrite Sprint) w i)
      with (diffSlices_WriteBTo Sprint w i).
    unfold diffSlices_WriteBTo. rewrite bind_returns by readonly.
    rewrite atB_returns, Ex by assumption. reflexivity.
Qed.

Lemma C10_witness :
  let int := {| reflect.kind := reflect.Int; reflect.str := "int" |} in
  let ints := {| reflect.kind := reflect.Slice; reflect.str := "[]int" |} in
  let a := reflect.dyn ints 0 [reflect.dyn int 1 []; reflect.dyn int 2 []] in
  let ab := {| diffSlices_a := reflect.Holding a;
               diffSlices_b := reflect.Holding a;
               diffSlices_eq := fun _ _ => false |} in
  let Sprint := fun x : reflect.any =>
    match x with
    | reflect.dyn _ 1 _ => list_byte_of_string "1"
    | _ => list_byte_of_string "?"
    end in
  let w : bytes.Buffer := [] in
  (0 <= 0 < len (elements a) ->
   exists x, nth_error (elements a) (Z.to_nat 0) = Some x /\
     returns (WriteATo (DiffWrite := diffSlices_DiffWrite Sprint) w 0) ab
     = Ok (fmt.Fprint Sprint w x) /\
     fmt.Fprint Sprint w x = io.Write w (Sprint x)) /\
  (0 <= 0 < len (elements a) ->
   exists y, nth_error (elements a) (Z.to_nat 0) = Some y /\
     returns (WriteBTo (DiffWrite := diffSlices_DiffWrite Sprint) w 0) ab
     = Ok (fmt.Fprint Sprint w y) /\
     fmt.Fprint Sprint w y = io.Write w (Sprint y)).
Proof.
  intros int ints a ab Sprint w.
  apply (C10_Slices_write_is_Fprint (fun _ _ => true) Sprint
           bytes.Buffer _ w a a (Some (fun _ _ => false)) ab 0).
  reflexivity.
Defined.

End AdapterSpec.

(* ================================================================== *)
(** * Properties of the command                                         *)
(* ================================================================== *)

Module CmdSpec.

Import Cmd.

Lemma andThen_pure {A B} (x : A) (k : A -> prog B) :
  andThen (pure x) k = k x.
Proof. unfold andThen, pure. destruct (k x). reflexivity. Qed.

Section Run.

Variable EditScript : Type.
Variable Myers : Context -> Adapter.diffStrings -> EditScript.
Variable WriteUnified :
  EditScript -> Z -> Adapter.diffStrings -> list WriteOpt ->
  list byte * (Z * option error).
Variable fs : string -> error + (list string * option error).
Variable ParseInt : string -> option Z.
Variable ParseDuration : string -> option Z.

Local Abbreviation run :=
  (main EditScript Myers WriteUnified fs ParseInt ParseDuration).
Local Abbreviation parse := (flag_Parse ParseInt ParseDuration).

(** The three ways [flag.Parse()] ends. *)
Lemma flag_Parse_cases (base : string) (arguments : list string) :
  (exists inv, parse base arguments = pure inv) \/
  parse base arguments = ([FlagUsage], inr 0) \/
  (exists e, parse base arguments = ([FlagError e; FlagUsage], inr 2)).
Proof.
  unfold flag_Parse.
  destruct (parseFlags ParseInt ParseDuration arguments (declared base))
    as [inv|e|].
  - left. exists inv. reflexivity.
  - right. right. exists e. reflexivity.
  - right. left. reflexivity.
Qed.

Lemma main_help (base : string) (arguments : list string) :
  parse base arguments = ([FlagUsage], inr 0) ->
  run base arguments = ([FlagUsage], inr 0).
Proof. intros Hp. unfold main. rewrite Hp. reflexivity. Qed.

Lemma main_rejected (base : string) (arguments : list string)
  (e : flag.failure) :
  parse base arguments = ([FlagError e; FlagUsage], inr 2) ->
  run base arguments = ([FlagError e; FlagUsage], inr 2).
Proof. intros Hp. unfold main. rewrite Hp. reflexivity. Qed.

Lemma main_usage (base : string) (arguments : list string)
  (inv : invocation) :
  parse base arguments = pure inv ->
  len (Args inv) <> 2 ->
  run base arguments =
  ([Printed ("syntax: " ++ base ++ " name1 name2" ++ newline)], inr 2).
Proof.
  intros Hp H. unfold main. rewrite Hp, andThen_pure.
  destruct (len (Args inv) =? 2) eqn:E; [apply Z.eqb_eq in E; contradiction|].
  reflexivity.
Qed.


Lemma main_two_readable (base : string) (arguments : list string)
  (inv : invocation) (n1 n2 : string) (aLines bLines : list string) :
  parse base arguments = pure inv ->
  Args inv = [n1; n2] ->
  fs n1 = inr (aLines, None) -> fs n2 = inr (bLines, None) ->
  let ab := Adapter.Strings aLines bLines in
  let ctx := if timeout inv =? 0 then Background
             else WithTimeout (timeout inv) in
  let opts := if color inv then [Names n1 n2; TerminalColor]
              else [Names n1 n2] in
  let w := WriteUnified (Myers ctx ab) (unified inv) ab opts in
  run base arguments =
  ([Opened n1; Opened n2; Stdout (fst w)] ++
   match snd (snd w) with Some e => [Logged e] | None => [] end,
   match snd (snd w) with Some e => inr 1 | None => inl tt end)%list.
Proof.
  intros Hp H F1 F2 ab ctx opts w. unfold main. rewrite Hp, andThen_pure.
  unfold fileLines, flag_Arg.
  rewrite H. simpl. rewrite F1. simpl. rewrite F2. simpl.
  subst w opts ctx ab.
  destruct (timeout inv =? 0), (color inv); simpl;
    destruct (WriteUnified _ _ _ _) as [out [n [e|]]]; reflexivity.
Qed.

End Run.




End CmdSpec.

(* ================================================================== *)
(** * Minimality of the computed edit script                            *)
(* ================================================================== *)

Module MyersSpec.

Import Myers.

(** *** The reference distance *)

Section Distance.

Variable eq : Z -> Z -> bool.

Lemma distance_0_l (j : nat) : distance eq 0 j = j.
Proof. reflexivity. Qed.

Lemma distance_0_r (i : nat) : distance eq i 0 = i.
Proof. destruct i; reflexivity. Qed.

Lemma distance_S_S (i j : nat) :
  distance eq (S i) (S j) =
  let edit := S (Nat.min (distance eq i (S j)) (distance eq (S i) j)) in
  if eq (Z.of_nat i) (Z.of_nat j)
  then Nat.min (distance eq i j) edit
  else edit.
Proof. reflexivity. Qed.

Lemma distance_delete (i j : nat) :
  (distance eq (S i) j <= S (distance eq i j))%nat.
Proof.
  destruct j as [|j].
  - rewrite !distance_0_r. lia.
  - rewrite distance_S_S. cbv zeta.
    destruct (eq (Z.of_nat i) (Z.of_nat j)); lia.
Qed.

Lemma distance_insert (i j : nat) :
  (distance eq i (S j) <= S (distance eq i j))%nat.
Proof.
  destruct i as [|i].
  - rewrite !distance_0_l. lia.
  - rewrite distance_S_S. cbv zeta.
    destruct (eq (Z.of_nat i) (Z.of_nat j)); lia.
Qed.

Lemma distance_keep (i j : nat) :
  eq (Z.of_nat i) (Z.of_nat j) = true ->
  (distance eq (S i) (S j) <= distance eq i j)%nat.
Proof.
  intros H. rewrite distance_S_S, H. cbv zeta. lia.
Qed.

Lemma distance_le (i j : nat) : (distance eq i j <= i + j)%nat.
Proof.
  induction i as [|i IH].
  - rewrite distance_0_l. lia.
  - pose proof (distance_delete i j). lia.
Qed.

End Distance.

Section Correctness.

Variable p : SequencePair.

Local Abbreviation N := (Myers.N p).
Local Abbreviation M := (Myers.M p).
Local Abbreviation reach := (Myers.reach p).
Local Abbreviation dist := (distance (equal p)).
Local Abbreviation cost := (Myers.cost p).

Lemma N_nonneg : 0 <= N.
Proof. unfold Myers.N. lia. Qed.

Lemma M_nonneg : 0 <= M.
Proof. unfold Myers.M. lia. Qed.

Lemma diagonal_true (x y : Z) :
  diagonal p x y = true -> x < N /\ y < M /\ equal p x y = true.
Proof.
  unfold diagonal. rewrite !andb_true_iff, !Z.ltb_lt. tauto.
Qed.

(** *** Paths: where they end *)

(** A path with [d] edits ends on a diagonal [-d + 2 i], [i <= d], in
    the non-negative quadrant. *)
Lemma reach_diagonal (d : nat) (x y : Z) :
  reach d x y ->
  0 <= x /\ 0 <= y /\
  exists i : nat, (i <= d)%nat /\ x - y = - Z.of_nat d + 2 * Z.of_nat i.
Proof.
  induction 1 as [|d x y _ IH Hd|d x y _ IH|d x y _ IH].
  - repeat split; try lia. exists 0%nat. lia.
  - destruct IH as (Hx & Hy & i & Hi & E). repeat split; try lia.
    exists i. lia.
  - destruct IH as (Hx & Hy & i & Hi & E). repeat split; try lia.
    exists (S i). lia.
  - destruct IH as (Hx & Hy & i & Hi & E). repeat split; try lia.
    exists i. lia.
Qed.

(** No path is cheaper than the reference distance. *)
Lemma reach_cost (d : nat) (x y : Z) :
  reach d x y -> cost x y <= Z.of_nat d.
Proof.
  pose proof N_nonneg as HN. pose proof M_nonneg as HM.
  intros H. pose proof (reach_diagonal d x y H) as R. revert R.
  induction H as [|d x y H IH Hd|d x y H IH|d x y H IH]; intros R.
  - unfold Myers.cost. rewrite !Z.min_l by lia. simpl. lia.
  - apply diagonal_true in Hd. destruct Hd as (Hx & Hy & He).
    pose proof (reach_diagonal _ _ _ H) as R'. specialize (IH R').
    destruct R' as (Hx0 & Hy0 & _).
    unfold Myers.cost in *.
    rewrite (Z.min_l (x + 1) N), (Z.min_l (y + 1) M) by lia.
    rewrite (Z.min_l x N), (Z.min_l y M) in IH by lia.
    replace (Z.to_nat (x + 1)) with (S (Z.to_nat x)) by lia.
    replace (Z.to_nat (y + 1)) with (S (Z.to_nat y)) by lia.
    pose proof (distance_keep (equal p) (Z.to_nat x) (Z.to_nat y)) as K.
    rewrite !Z2Nat.id in K by lia. specialize (K He). lia.
  - pose proof (reach_diagonal _ _ _ H) as R'. specialize (IH R').
    destruct R' as (Hx0 & Hy0 & _).
    unfold Myers.cost in *.
    destruct (Z.lt_ge_cases x N) as [Hx|Hx].
    + rewrite (Z.min_l (x + 1) N) by lia.
      rewrite (Z.min_l x N) in IH by lia.
      replace (Z.to_nat (x + 1)) with (S (Z.to_nat x)) by lia.
      pose proof (distance_delete (equal p) (Z.to_nat x)
                    (Z.to_nat (Z.min y M))). lia.
    + rewrite (Z.min_r (x + 1) N) by lia.
      rewrite (Z.min_r x N) in IH by lia. lia.
  - pose proof (reach_diagonal _ _ _ H) as R'. specialize (IH R').
    destruct R' as (Hx0 & Hy0 & _).
    unfold Myers.cost in *.
    destruct (Z.lt_ge_cases y M) as [Hy|Hy].
    + rewrite (Z.min_l (y + 1) M) by lia.
      rewrite (Z.min_l y M) in IH by lia.
      replace (Z.to_nat (y + 1)) with (S (Z.to_nat y)) by lia.
      pose proof (distance_insert (equal p) (Z.to_nat (Z.min x N))
                    (Z.to_nat y)). lia.
    + rewrite (Z.min_r (y + 1) M) by lia.
      rewrite (Z.min_r y M) in IH by lia. lia.
Qed.

(** The reference distance is the cost of some path. *)
Lemma reach_distance (i j : nat) :
  (i <= lenA p)%nat -> (j <= lenB p)%nat ->
  reach (dist i j) (Z.of_nat i) (Z.of_nat j).
Proof.
  revert j. induction i as [|i IHi]; intros j.
  - intros _. induction j as [|j IHj]; intros Hj.
    + apply reach_origin.
    + rewrite distance_0_l in *.
      replace (Z.of_nat (S j)) with (Z.of_nat j + 1) by lia.
      apply (reach_insert p j 0 (Z.of_nat j)). apply IHj. lia.
  - intros Hi. induction j as [|j IHj]; intros Hj.
    + rewrite distance_0_r.
      replace (Z.of_nat (S i)) with (Z.of_nat i + 1) by lia.
      apply (reach_delete p i (Z.of_nat i) 0).
      specialize (IHi 0%nat). rewrite distance_0_r in IHi. apply IHi; lia.
    + rewrite distance_S_S. cbv zeta.
      replace (Z.of_nat (S i)) with (Z.of_nat i + 1) by lia.
      replace (Z.of_nat (S j)) with (Z.of_nat j + 1) by lia.
      assert (Hedit :
        reach (S (Nat.min (dist i (S j)) (dist (S i) j)))
          (Z.of_nat i + 1) (Z.of_nat j + 1)).
      { destruct (Nat.min_spec (dist i (S j)) (dist (S i) j))
          as [[_ ->]|[_ ->]].
        - apply reach_delete.
          replace (Z.of_nat j + 1) with (Z.of_nat (S j)) by lia.
          apply IHi; lia.
        - apply reach_insert.
          replace (Z.of_nat i + 1) with (Z.of_nat (S i)) by lia.
          apply IHj. lia. }
      destruct (equal p (Z.of_nat i) (Z.of_nat j)) eqn:He; [|exact Hedit].
      destruct (Nat.min_spec (dist i j)
                  (S (Nat.min (dist i (S j)) (dist (S i) j))))
        as [[_ ->]|[_ ->]]; [|exact Hedit].
      apply reach_keep; [apply IHi; lia|].
      unfold diagonal. rewrite He, andb_true_r, andb_true_iff, !Z.ltb_lt.
      unfold Myers.N, Myers.M. lia.
Qed.

(** *** Snakes *)

Lemma snake_ge (fuel : nat) (x y : Z) : x <= snake p fuel x y.
Proof.
  revert x y. induction fuel as [|fuel IH]; intros x y; simpl; [lia|].
  destruct (diagonal p x y); [|lia].
  specialize (IH (x + 1) (y + 1)). lia.
Qed.

Lemma snake_reach (fuel d : nat) (x y : Z) :
  reach d x y ->
  reach d (snake p fuel x y) (snake p fuel x y - (x - y)).
Proof.
  revert x y. induction fuel as [|fuel IH]; intros x y H; simpl.
  - replace (x - (x - y)) with y by lia. exact H.
  - destruct (diagonal p x y) eqn:Hd.
    + replace (x - y) with ((x + 1) - (y + 1)) by lia.
      apply IH. apply reach_keep; assumption.
    + replace (x - (x - y)) with y by lia. exact H.
Qed.

Lemma snake_stops (fuel : nat) (x y : Z) :
  N - x <= Z.of_nat fuel ->
  diagonal p (snake p fuel x y) (snake p fuel x y - (x - y)) = false.
Proof.
  revert x y. induction fuel as [|fuel IH]; intros x y H; simpl.
  - unfold diagonal. replace (x <? N) with false; [reflexivity|].
    symmetry. apply Z.ltb_ge. lia.
  - destruct (diagonal p x y) eqn:Hd.
    + replace (x - y) with ((x + 1) - (y + 1)) by lia. apply IH. lia.
    + replace (x - (x - y)) with y by lia. exact Hd.
Qed.

(** *** One diagonal of one depth *)

Lemma inDepth_bounds (d : nat) (k : Z) :
  inDepth d k -> - Z.of_nat d <= k <= Z.of_nat d.
Proof. intros (i & Hi & ->). lia. Qed.

Lemma enter_sound (d : nat) (prev : frontier) (k : Z) :
  ready p d prev -> inDepth d k ->
  reach d (enter prev (Z.of_nat d) k) (enter prev (Z.of_nat d) k - k).
Proof.
  intros Hr (i & Hi & ->). unfold enter, vertical.
  destruct d as [|d].
  - assert (i = 0)%nat as -> by lia. simpl in Hr. subst prev. simpl.
    apply reach_origin.
  - destruct Hr as [Hs _].
    set (k := - Z.of_nat (S d) + 2 * Z.of_nat i).
    destruct ((k =? - Z.of_nat (S d))
              || negb (k =? Z.of_nat (S d)) && (prev (k - 1) <? prev (k + 1)))
      eqn:V.
    + assert (Hin : inDepth d (k + 1)).
      { exists i. split; [|subst k; lia].
        apply orb_true_iff in V. destruct V as [V|V].
        - apply Z.eqb_eq in V. subst k. lia.
        - apply andb_true_iff in V. destruct V as [V _].
          apply negb_true_iff, Z.eqb_neq in V. subst k. lia. }
      specialize (Hs _ Hin).
      replace (prev (k + 1) - k) with (prev (k + 1) - (k + 1) + 1) by lia.
      apply reach_insert. exact Hs.
    + assert (Hin : inDepth d (k - 1)).
      { apply orb_false_iff in V. destruct V as [V _].
        apply Z.eqb_neq in V.
        exists (i - 1)%nat. subst k. split; lia. }
      specialize (Hs _ Hin).
      replace (prev (k - 1) + 1 - k) with (prev (k - 1) - (k - 1)) by lia.
      apply reach_delete. exact Hs.
Qed.

Lemma extend_sound (d : nat) (prev : frontier) (k : Z) :
  ready p d prev -> inDepth d k ->
  reach d (extend p prev (Z.of_nat d) k) (extend p prev (Z.of_nat d) k - k).
Proof.
  intros Hr Hk. pose proof (enter_sound d prev k Hr Hk) as H.
  unfold extend. cbv zeta.
  set (x0 := enter prev (Z.of_nat d) k) in *.
  pose proof (snake_reach (lenA p) d x0 (x0 - k) H) as S.
  replace (x0 - (x0 - k)) with k in S by lia. exact S.
Qed.

Lemma extend_stops (d : nat) (prev : frontier) (k : Z) :
  ready p d prev -> inDepth d k ->
  diagonal p (extend p prev (Z.of_nat d) k)
    (extend p prev (Z.of_nat d) k - k) = false.
Proof.
  intros Hr Hk. pose proof (enter_sound d prev k Hr Hk) as H.
  apply reach_diagonal in H. destruct H as (Hx & _).
  unfold extend. cbv zeta.
  set (x0 := enter prev (Z.of_nat d) k) in *.
  pose proof (snake_stops (lenA p) x0 (x0 - k)) as S.
  replace (x0 - (x0 - k)) with k in S by lia. apply S.
  unfold Myers.N. lia.
Qed.

Lemma extend_ge_enter (prev : frontier) (d k : Z) :
  enter prev d k <= extend p prev d k.
Proof. unfold extend. apply snake_ge. Qed.

Lemma extend_complete (d : nat) (prev : frontier) (x y : Z) :
  ready p d prev -> reach d x y ->
  x <= extend p prev (Z.of_nat d) (x - y).
Proof.
  intros Hr H. revert Hr.
  induction H as [|d x y H IH Hd|d x y H IH|d x y H IH]; intros Hr.
  - simpl in Hr. subst prev.
    eapply Z.le_trans; [|apply extend_ge_enter]. reflexivity.
  - specialize (IH Hr).
    replace (x + 1 - (y + 1)) with (x - y) by lia.
    pose proof (reach_diagonal _ _ _ H) as (_ & _ & Hk).
    pose proof (extend_stops d prev (x - y) Hr Hk) as St.
    destruct (Z.eq_dec x (extend p prev (Z.of_nat d) (x - y))) as [E|E];
      [|lia].
    rewrite <- E in St. replace (x - (x - y)) with y in St by lia.
    congruence.
  - clear IH. destruct Hr as [_ Hc]. specialize (Hc _ _ H).
    pose proof (reach_diagonal _ _ _ H) as (_ & _ & Hk).
    apply inDepth_bounds in Hk.
    eapply Z.le_trans; [|apply extend_ge_enter].
    unfold enter, vertical.
    replace (x + 1 - y - 1) with (x - y) by lia.
    destruct ((x + 1 - y =? - Z.of_nat (S d))
              || negb (x + 1 - y =? Z.of_nat (S d))
                 && (prev (x - y) <? prev (x + 1 - y + 1))) eqn:V; [|lia].
    apply orb_true_iff in V. destruct V as [V|V].
    + apply Z.eqb_eq in V. lia.
    + apply andb_true_iff in V. destruct V as [_ V].
      apply Z.ltb_lt in V. lia.
  - clear IH. destruct Hr as [_ Hc]. specialize (Hc _ _ H).
    pose proof (reach_diagonal _ _ _ H) as (_ & _ & Hk).
    apply inDepth_bounds in Hk.
    eapply Z.le_trans; [|apply extend_ge_enter].
    unfold enter, vertical.
    replace (x - (y + 1) + 1) with (x - y) by lia.
    destruct ((x - (y + 1) =? - Z.of_nat (S d))
              || negb (x - (y + 1) =? Z.of_nat (S d))
                 && (prev (x - (y + 1) - 1) <? prev (x - y))) eqn:V; [lia|].
    apply orb_false_iff in V. destruct V as [_ V].
    apply andb_false_iff in V. destruct V as [V|V].
    + apply negb_false_iff, Z.eqb_eq in V. lia.
    + apply Z.ltb_ge in V. lia.
Qed.

(** A frontier that agrees with [extend] on the diagonals of its depth
    is the furthest-reaching one. *)
Lemma furthest_of_extend (d : nat) (prev cur : frontier) :
  ready p d prev ->
  (forall k, inDepth d k -> cur k = extend p prev (Z.of_nat d) k) ->
  furthest p d cur.
Proof.
  intros Hr Hc. split.
  - intros k Hk. rewrite (Hc k Hk). apply extend_sound; assumption.
  - intros x y H.
    pose proof (reach_diagonal _ _ _ H) as (_ & _ & Hk).
    rewrite (Hc _ Hk). apply extend_complete; assumption.
Qed.

(** *** One depth *)

Lemma diagonals_below (n : nat) (d k : Z) (prev cur : frontier) (key : Z) :
  key < k -> fst (diagonals p n d k prev cur) key = cur key.
Proof.
  revert k cur. induction n as [|n IH]; intros k cur Hk; simpl.
  - reflexivity.
  - destruct (corner p (extend p prev d k) k); simpl.
    + unfold record. destruct (key =? k) eqn:E; [apply Z.eqb_eq in E; lia|].
      reflexivity.
    + rewrite IH by lia. unfold record.
      destruct (key =? k) eqn:E; [apply Z.eqb_eq in E; lia|]. reflexivity.
Qed.

Lemma diagonals_miss (n : nat) (d k : Z) (prev cur : frontier) :
  snd (diagonals p n d k prev cur) = false ->
  forall i : nat, (i < n)%nat ->
    let k' := k + 2 * Z.of_nat i in
    fst (diagonals p n d k prev cur) k' = extend p prev d k' /\
    corner p (extend p prev d k') k' = false.
Proof.
  revert k cur. induction n as [|n IH]; intros k cur Hs i Hi; [lia|].
  cbn [diagonals] in *. destruct (corner p (extend p prev d k) k) eqn:C;
    [discriminate|].
  destruct i as [|i].
  - cbv zeta. replace (k + 2 * Z.of_nat 0) with k by lia. split; [|exact C].
    rewrite diagonals_below by lia. unfold record. rewrite Z.eqb_refl.
    reflexivity.
  - cbv zeta.
    replace (k + 2 * Z.of_nat (S i)) with (k + 2 + 2 * Z.of_nat i) by lia.
    apply (IH (k + 2) _ Hs i). lia.
Qed.

Lemma diagonals_hit (n : nat) (d k : Z) (prev cur : frontier) :
  snd (diagonals p n d k prev cur) = true ->
  exists i : nat, (i < n)%nat /\
    corner p (extend p prev d (k + 2 * Z.of_nat i)) (k + 2 * Z.of_nat i) = true.
Proof.
  revert k cur. induction n as [|n IH]; intros k cur Hs;
    cbn [diagonals] in *; [discriminate|].
  destruct (corner p (extend p prev d k) k) eqn:C.
  - exists 0%nat. replace (k + 2 * Z.of_nat 0) with k by lia. split; [lia|].
    exact C.
  - destruct (IH _ _ Hs) as (i & Hi & Hc). exists (S i). split; [lia|].
    replace (k + 2 * Z.of_nat (S i)) with (k + 2 + 2 * Z.of_nat i) by lia.
    exact Hc.
Qed.

Lemma corner_true (x k : Z) :
  corner p x k = true -> x = N /\ k = N - M.
Proof.
  unfold corner. rewrite andb_true_iff, !Z.eqb_eq. lia.
Qed.

Lemma cost_corner : cost N M = Z.of_nat (editDistance p).
Proof.
  unfold Myers.cost, editDistance, Myers.N, Myers.M.
  rewrite !Z.min_id, !Nat2Z.id. lia.
Qed.

(** A depth that reaches the corner is at least the distance. *)
Lemma hit_lower_bound (d : nat) (prev cur : frontier) :
  ready p d prev ->
  snd (diagonals p (S d) (Z.of_nat d) (- Z.of_nat d) prev cur) = true ->
  (editDistance p <= d)%nat.
Proof.
  intros Hr Hs. apply diagonals_hit in Hs. destruct Hs as (i & Hi & Hc).
  assert (Hk : inDepth d (- Z.of_nat d + 2 * Z.of_nat i))
    by (exists i; split; [lia|reflexivity]).
  pose proof (extend_sound d prev _ Hr Hk) as H.
  apply corner_true in Hc. destruct Hc as [Ex Ek].
  rewrite Ex, Ek in H. replace (N - (N - M)) with M in H by lia.
  apply reach_cost in H. rewrite cost_corner in H. lia.
Qed.

(** The depth equal to the distance reaches the corner. *)
Lemma distance_depth_hits (prev cur : frontier) :
  let d := editDistance p in
  ready p d prev ->
  snd (diagonals p (S d) (Z.of_nat d) (- Z.of_nat d) prev cur) = true.
Proof.
  intros d Hr.
  destruct (snd (diagonals p (S d) (Z.of_nat d) (- Z.of_nat d) prev cur))
    eqn:Hs; [reflexivity|exfalso].
  pose proof (reach_distance (lenA p) (lenB p) (le_n _) (le_n _)) as H.
  fold (editDistance p) in H. fold d in H.
  change (Z.of_nat (lenA p)) with N in H.
  change (Z.of_nat (lenB p)) with M in H.
  pose proof (reach_diagonal _ _ _ H) as (_ & _ & Hk).
  pose proof (extend_complete d prev N M Hr H) as Hge.
  pose proof (extend_sound d prev (N - M) Hr Hk) as Hx.
  apply reach_cost in Hx.
  set (x := extend p prev (Z.of_nat d) (N - M)) in *.
  pose proof N_nonneg. pose proof M_nonneg.
  unfold Myers.cost in Hx.
  rewrite (Z.min_r x N), (Z.min_r (x - (N - M)) M) in Hx by lia.
  assert (Hd : Z.of_nat (distance (equal p) (Z.to_nat N) (Z.to_nat M))
               = Z.of_nat d).
  { unfold Myers.N, Myers.M. rewrite !Nat2Z.id. reflexivity. }
  rewrite Hd in Hx.
  assert (Ex : x = N) by lia.
  destruct Hk as (i & Hi & Ek).
  destruct (diagonals_miss (S d) (Z.of_nat d) (- Z.of_nat d) prev cur Hs i)
    as [_ C]; [lia|].
  rewrite <- Ek in C. fold x in C. unfold corner in C.
  rewrite Ex in C. replace (N - (N - M)) with M in C by lia.
  rewrite !Z.eqb_refl in C. discriminate.
Qed.

(** *** The search *)

Lemma search_spec (cancelled : nat -> bool) (fuel d : nat)
  (prev : frontier) (trace : list frontier) :
  ready p d prev -> List.length trace = d ->
  (d <= editDistance p)%nat -> (editDistance p - d < fuel)%nat ->
  match search p cancelled fuel d prev trace with
  | Reached tr =>
      List.length tr = editDistance p /\
      forall d', (d <= d' <= editDistance p)%nat -> cancelled d' = false
  | Aborted =>
      exists d', (d <= d' <= editDistance p)%nat /\ cancelled d' = true
  | NotReached => False
  end.
Proof.
  revert d prev trace.
  induction fuel as [|fuel IH]; intros d prev trace Hr Hl Hd Hf; [lia|].
  cbn [search]. destruct (cancelled d) eqn:Hc.
  - exists d. split; [lia|exact Hc].
  - destruct (diagonals p (S d) (Z.of_nat d) (- Z.of_nat d) prev empty)
      as [cur hit] eqn:Hdiag.
    destruct hit.
    + assert (Hs : snd (diagonals p (S d) (Z.of_nat d) (- Z.of_nat d)
                          prev empty) = true) by (rewrite Hdiag; reflexivity).
      pose proof (hit_lower_bound d prev empty Hr Hs) as Hlow.
      assert (d = editDistance p) by lia. split; [lia|].
      intros d' Hd'. assert (d' = d) by lia. subst d'. exact Hc.
    + assert (Hs : snd (diagonals p (S d) (Z.of_nat d) (- Z.of_nat d)
                          prev empty) = false) by (rewrite Hdiag; reflexivity).
      assert (Hlt : (d < editDistance p)%nat).
      { destruct (Nat.eq_dec d (editDistance p)) as [E|E]; [|lia].
        pose proof (distance_depth_hits prev empty) as Hh. cbv zeta in Hh.
        rewrite <- E in Hh. rewrite (Hh Hr) in Hs. discriminate. }
      assert (Hcur : furthest p d cur).
      { apply (furthest_of_extend d prev cur Hr).
        intros k (i & Hi & ->).
        destruct (diagonals_miss (S d) (Z.of_nat d) (- Z.of_nat d)
                    prev empty Hs i) as [E _]; [lia|].
        rewrite Hdiag in E. exact E. }
      specialize (IH (S d) cur (cur :: trace) Hcur).
      simpl in IH. specialize (IH (f_equal S Hl)).
      specialize (IH ltac:(lia) ltac:(lia)).
      destruct (search p cancelled fuel (S d) cur (cur :: trace)) as [tr| |].
      * destruct IH as [Hlen Hno]. split; [exact Hlen|].
        intros d' Hd'. destruct (Nat.eq_dec d' d) as [->|Hne];
          [exact Hc|apply Hno; lia].
      * destruct IH as (d' & Hd' & Hc'). exists d'. split; [lia|exact Hc'].
      * exact IH.
Qed.

(** *** The script *)

Lemma edits_app (s t : EditScript) :
  edits (s ++ t)%list = (edits s + edits t)%nat.
Proof. unfold edits. rewrite filter_app, length_app. reflexivity. Qed.

Lemma edits_cons (op : Operation) (s : EditScript) :
  edits (op :: s) = if isEdit op then S (edits s) else edits s.
Proof. unfold edits. simpl. destruct (isEdit op); reflexivity. Qed.

Lemma edits_keeps (n : nat) (x y : Z) : edits (keeps n x y) = 0%nat.
Proof.
  revert x y. induction n as [|n IH]; intros x y; [reflexivity|].
  cbn [keeps]. rewrite edits_cons. apply IH.
Qed.

(** Backtracking emits one edit for each recorded frontier. *)
Lemma edits_backtrack (trace : list frontier) (d x y : Z) (acc : EditScript) :
  edits (backtrack trace d x y acc) = (List.length trace + edits acc)%nat.
Proof.
  revert d x y acc. induction trace as [|prev older IH]; intros d x y acc.
  - cbn [backtrack]. rewrite edits_app, edits_keeps. reflexivity.
  - cbn [backtrack List.length]. destruct (vertical prev d (x - y));
      rewrite IH, edits_cons, edits_app, edits_keeps; simpl; lia.
Qed.

(** What [compute] reports, for every cancellation signal: a script
    whose edits number the reference distance when the signal stayed
    down through the search; a cancellation only when the signal was up
    at some depth the search came to; never a search without result. *)
Lemma compute_spec (cancelled : nat -> bool) :
  match compute p cancelled with
  | Script s =>
      edits s = editDistance p /\
      forall d, (d <= editDistance p)%nat -> cancelled d = false
  | Cancelled =>
      exists d, (d <= editDistance p)%nat /\ cancelled d = true
  | Exhausted => False
  end.
Proof.
  unfold compute.
  assert (Hb : (editDistance p <= lenA p + lenB p)%nat)
    by apply distance_le.
  pose proof (search_spec cancelled (S (lenA p + lenB p)) 0 empty []
                eq_refl eq_refl ltac:(lia) ltac:(lia)) as H.
  destruct (search p cancelled (S (lenA p + lenB p)) 0 empty [])
    as [tr| |].
  - destruct H as [Hl Hc]. split.
    + rewrite edits_backtrack. unfold edits. simpl. lia.
    + intros d Hd. apply Hc. lia.
  - destruct H as (d & Hd & Hc). exists d. split; [lia|exact Hc].
  - exact H.
Qed.

(** *** The script is a path *)

Lemma snake_edges (fuel : nat) (x y x' : Z) :
  x <= x' < snake p fuel x y -> diagonal p x' (x' - (x - y)) = true.
Proof.
  revert x y. induction fuel as [|fuel IH]; intros x y H; simpl in H; [lia|].
  destruct (diagonal p x y) eqn:Hd; [|lia].
  destruct (Z.eq_dec x' x) as [->|Hne].
  - replace (x - (x - y)) with y by lia. exact Hd.
  - replace (x - y) with (x + 1 - (y + 1)) by lia. apply IH. lia.
Qed.

Lemma follows_bounds (s : EditScript) (x y : Z) :
  follows p s x y -> x <= N /\ y <= M.
Proof.
  induction 1 as [|x y s Hd _ IH|x y s Hx _ IH|x y s Hy _ IH]; lia.
Qed.

(** Keep operations along a run of diagonal edges. *)
Lemma follows_keeps (n : nat) (x y : Z) (s : EditScript) :
  (forall x', x <= x' < x + Z.of_nat n ->
              diagonal p x' (x' - (x - y)) = true) ->
  follows p s (x + Z.of_nat n) (y + Z.of_nat n) ->
  follows p (keeps n x y ++ s)%list x y.
Proof.
  revert x y. induction n as [|n IH]; intros x y He Hs.
  - simpl. replace (x + Z.of_nat 0) with x in Hs by lia.
    replace (y + Z.of_nat 0) with y in Hs by lia. exact Hs.
  - cbn [keeps app]. apply follows_keep.
    + specialize (He x). replace (x - (x - y)) with y in He by lia.
      apply He. lia.
    + apply IH.
      * intros x' Hx'. replace (x + 1 - (y + 1)) with (x - y) by lia.
        apply He. lia.
      * replace (x + 1 + Z.of_nat n) with (x + Z.of_nat (S n)) by lia.
        replace (y + 1 + Z.of_nat n) with (y + Z.of_nat (S n)) by lia.
        exact Hs.
Qed.

(** From the end of a snake back to where the diagonal was entered. *)
Lemma follows_snake (prev : frontier) (d k : Z) (s : EditScript) :
  let x0 := enter prev d k in
  let x := extend p prev d k in
  follows p s x (x - k) ->
  follows p (keeps (Z.to_nat (x - x0)) x0 (x0 - k) ++ s)%list x0 (x0 - k).
Proof.
  intros x0 x Hs.
  assert (Ex : x = snake p (lenA p) x0 (x0 - k)) by reflexivity.
  pose proof (snake_ge (lenA p) x0 (x0 - k)) as Hge. rewrite <- Ex in Hge.
  clearbody x x0. apply follows_keeps.
  - intros x' Hx'. replace (x0 - (x0 - k)) with k by lia.
    pose proof (snake_edges (lenA p) x0 (x0 - k) x') as E.
    replace (x0 - (x0 - k)) with k in E by lia. apply E.
    rewrite <- Ex. lia.
  - rewrite Z2Nat.id by lia.
    replace (x0 + (x - x0)) with x by lia.
    replace (x0 - k + (x - x0)) with (x - k) by lia. exact Hs.
Qed.

Lemma backtrack_follows (d : nat) :
  forall (prev : frontier) (trace : list frontier) (x y : Z)
         (acc : EditScript),
    recorded p d prev trace -> ready p d prev -> inDepth d (x - y) ->
    x = extend p prev (Z.of_nat d) (x - y) ->
    follows p acc x y ->
    follows p (backtrack trace (Z.of_nat d) x y acc) 0 0.
Proof.
  induction d as [|d IH]; intros prev trace x y acc Hrec Hr Hk Hx Hacc.
  - destruct Hrec as [-> ->]. destruct Hk as (i & Hi & Hk).
    assert (Hy : y = x) by lia. subst y. cbn [backtrack].
    pose proof (follows_snake empty (Z.of_nat 0) 0 acc) as F.
    cbv zeta in F. replace (x - x) with 0 in Hx by lia.
    rewrite <- Hx in F. change (enter empty (Z.of_nat 0) 0) with 0 in F.
    rewrite !Z.sub_0_r in F. apply F. exact Hacc.
  - destruct Hrec as (prev' & older & -> & Hrec' & Hr' & Hagree).
    cbn [backtrack].
    pose proof (follows_snake prev (Z.of_nat (S d)) (x - y) acc) as F.
    cbv zeta in F. rewrite <- Hx in F.
    replace (x - (x - y)) with y in F by lia. specialize (F Hacc).
    pose proof (enter_sound (S d) prev (x - y) Hr Hk) as Hent.
    apply reach_diagonal in Hent. destruct Hent as (Hex & Hey & _).
    pose proof (follows_bounds _ _ _ F) as [Hbx Hby].
    destruct Hk as (i & Hi & Hk). unfold enter in *.
    replace (Z.of_nat (S d) - 1) with (Z.of_nat d) by lia.
    destruct (vertical prev (Z.of_nat (S d)) (x - y)) eqn:V.
    + assert (Hin : inDepth d (x - y + 1)).
      { exists i. split; [|lia]. unfold vertical in V.
        apply orb_true_iff in V. destruct V as [V|V].
        - apply Z.eqb_eq in V. lia.
        - apply andb_true_iff in V. destruct V as [V _].
          apply negb_true_iff, Z.eqb_neq in V. lia. }
      set (px := prev (x - y + 1)) in *.
      apply (IH prev' older px (px - (x - y + 1))); try assumption.
      * replace (px - (px - (x - y + 1))) with (x - y + 1) by lia.
        exact Hin.
      * replace (px - (px - (x - y + 1))) with (x - y + 1) by lia.
        apply Hagree. exact Hin.
      * assert (0 <= px - (x - y + 1)).
        { pose proof (proj1 Hr _ Hin) as R. apply reach_diagonal in R.
          fold px in R. lia. }
        apply follows_insert; [lia|].
        replace (px - (x - y + 1) + 1) with (px - (x - y)) by lia.
        exact F.
    + assert (Hin : inDepth d (x - y - 1)).
      { unfold vertical in V. apply orb_false_iff in V. destruct V as [V _].
        apply Z.eqb_neq in V. exists (i - 1)%nat. split; lia. }
      set (px := prev (x - y - 1)) in *.
      apply (IH prev' older px (px - (x - y - 1))); try assumption.
      * replace (px - (px - (x - y - 1))) with (x - y - 1) by lia.
        exact Hin.
      * replace (px - (px - (x - y - 1))) with (x - y - 1) by lia.
        apply Hagree. exact Hin.
      * assert (0 <= px).
        { pose proof (proj1 Hr _ Hin) as R. apply reach_diagonal in R.
          fold px in R. lia. }
        apply follows_delete; [lia|].
        replace (px + 1 - (x - y)) with (px - (x - y - 1)) in F by lia.
        exact F.
Qed.

Lemma search_recorded (cancelled : nat -> bool) (fuel d : nat)
  (prev : frontier) (trace tr : list frontier) :
  recorded p d prev trace -> ready p d prev ->
  search p cancelled fuel d prev trace = Reached tr ->
  exists (D : nat) (last : frontier),
    recorded p D last tr /\ ready p D last /\ List.length tr = D /\
    inDepth D (N - M) /\ N = extend p last (Z.of_nat D) (N - M).
Proof.
  revert d prev trace.
  induction fuel as [|fuel IH]; intros d prev trace Hrec Hr Hs;
    [discriminate|].
  cbn [search] in Hs. destruct (cancelled d); [discriminate|].
  destruct (diagonals p (S d) (Z.of_nat d) (- Z.of_nat d) prev empty)
    as [cur hit] eqn:Hdiag.
  destruct hit.
  - injection Hs as <-. exists d, prev.
    assert (Hh : snd (diagonals p (S d) (Z.of_nat d) (- Z.of_nat d)
                        prev empty) = true) by (rewrite Hdiag; reflexivity).
    apply diagonals_hit in Hh. destruct Hh as (i & Hi & Hc).
    apply corner_true in Hc. destruct Hc as [Ex Ek].
    assert (Hk : inDepth d (N - M)) by (exists i; split; [lia|lia]).
    repeat split; try assumption.
    + clear - Hrec. revert prev trace Hrec.
      induction d as [|d IHd]; intros prev trace Hrec.
      * destruct Hrec as [_ ->]. reflexivity.
      * destruct Hrec as (prev' & older & -> & Hrec' & _).
        simpl. f_equal. apply (IHd prev' older Hrec').
    + rewrite <- Ek. symmetry. exact Ex.
  - assert (Hm : snd (diagonals p (S d) (Z.of_nat d) (- Z.of_nat d)
                        prev empty) = false) by (rewrite Hdiag; reflexivity).
    assert (Hagree : forall k, inDepth d k ->
                               cur k = extend p prev (Z.of_nat d) k).
    { intros k (i & Hi & ->).
      destruct (diagonals_miss (S d) (Z.of_nat d) (- Z.of_nat d)
                  prev empty Hm i) as [E _]; [lia|].
      rewrite Hdiag in E. exact E. }
    apply (IH (S d) cur (cur :: trace)); [|  |exact Hs].
    + exists prev, trace. repeat split; assumption.
    + apply (furthest_of_extend d prev cur Hr Hagree).
Qed.

(** The script [compute] produces is a path of the edit graph from the
    origin to the corner: scanning its Keep and Delete operations visits
    the indices of [A] in order, its Keep and Insert operations those of
    [B], and every Keep pairs equal elements. *)
Lemma compute_follows (cancelled : nat -> bool) (s : EditScript) :
  compute p cancelled = Script s -> follows p s 0 0.
Proof.
  unfold compute. intros H.
  destruct (search p cancelled (S (lenA p + lenB p)) 0 empty [])
    as [tr| |] eqn:Hs; try discriminate.
  injection H as <-.
  destruct (search_recorded cancelled _ 0 empty [] tr
              (conj eq_refl eq_refl) eq_refl Hs)
    as (D & last & Hrec & Hr & Hl & Hk & Hx).
  unfold len. rewrite Hl.
  apply (backtrack_follows D last tr N M []); try assumption.
  apply follows_nil.
Qed.

(** A script is a path, so it costs at least the reference distance. *)
Lemma follows_reach (s : EditScript) (x y : Z) :
  follows p s x y ->
  forall d, reach d x y -> reach (d + edits s) N M.
Proof.
  induction 1 as [|x y s Hd _ IH|x y s Hx _ IH|x y s Hy _ IH]; intros d R.
  - unfold edits. simpl. rewrite Nat.add_0_r. exact R.
  - rewrite edits_cons. simpl. apply IH. apply reach_keep; assumption.
  - rewrite edits_cons. simpl. rewrite Nat.add_succ_r.
    apply (IH (S d)). apply reach_delete. exact R.
  - rewrite edits_cons. simpl. rewrite Nat.add_succ_r.
    apply (IH (S d)). apply reach_insert. exact R.
Qed.

Lemma script_lower_bound (s : EditScript) :
  follows p s 0 0 -> (editDistance p <= edits s)%nat.
Proof.
  intros H. pose proof (follows_reach s 0 0 H 0%nat (reach_origin p)) as R.
  apply reach_cost in R. rewrite cost_corner in R. simpl in R. lia.
Qed.

End Correctness.

(** C3.  For every sequence pair (any lengths, any equality) the script
    [compute] produces is minimal: it is an edit script from [A] to [B]
    whose Insert and Delete operations number exactly the reference edit
    distance, which no edit script from [A] to [B] goes below.
    [compute] does produce a script when the cancellation signal is never
    raised, and whenever it reports a cancellation the signal was raised
    at a depth the search came to. *)
Theorem C3_script_is_minimal (p : SequencePair) (cancelled : nat -> bool) :
  match compute p cancelled with
  | Script s =>
      edits s = editDistance p /\
      follows p s 0 0 /\
      forall s', follows p s' 0 0 -> (edits s <= edits s')%nat
  | Cancelled => exists d, (d <= editDistance p)%nat /\ cancelled d = true
  | Exhausted => False
  end /\
  exists s, compute p never = Script s /\ edits s = editDistance p.
Proof.
  split.
  - pose proof (compute_spec p cancelled) as H.
    pose proof (compute_follows p cancelled) as F.
    destruct (compute p cancelled) as [s| |]; [|exact H|exact H].
    destruct H as [H _]. split; [exact H|]. split; [apply F; reflexivity|].
    intros s' Hs'. rewrite H. apply script_lower_bound. exact Hs'.
  - pose proof (compute_spec p never) as H.
    destruct (compute p never) as [s| |].
    + exists s. split; [reflexivity|apply H].
    + destruct H as (d & _ & H). discriminate.
    + contradiction.
Qed.

(** The specification's examples, run. *)
Example compute_substitution :
  compute (ofStrings ["a"; "b"; "c"; "d"; "e"] ["a"; "x"; "c"; "d"; "e"]) never
  = Script [Keep 0 0; Delete 1; Insert 1; Keep 2 2; Keep 3 3; Keep 4 4].
Proof. vm_compute. reflexivity. Qed.

Example compute_empty_A :
  compute (ofStrings [] ["a"; "b"]) never = Script [Insert 0; Insert 1].
Proof. vm_compute. reflexivity. Qed.

Example compute_empty_B :
  compute (ofStrings ["a"; "b"] []) never = Script [Delete 0; Delete 1].
Proof. vm_compute. reflexivity. Qed.

Example compute_cancelled :
  compute (ofStrings ["a"] ["b"]) (fun _ => true) = Cancelled.
Proof. vm_compute. reflexivity. Qed.

End MyersSpec.

(* ================================================================== *)
(** * Further properties of the adapters                                *)
(* ================================================================== *)

Module AdapterExtra.

Import Adapter Calls AdapterSpec.

(** *** Helpers *)

Lemma index_map {A B} (f : A -> B) (s : list A) (i : Z) :
  index (map f s) i =
  match index s i with
  | Ok x => Ok (f x)
  | Panic q => Panic q
  end.
Proof.
  unfold index, len. rewrite length_map.
  destruct ((i <? 0) || (Z.of_nat (List.length s) <=? i)); [reflexivity|].
  rewrite nth_error_map. destruct (nth_error s (Z.to_nat i)); reflexivity.
Qed.

Lemma string_eqb_bytes (x y : string) :
  String.eqb x y = bytes.Equal (list_byte_of_string x) (list_byte_of_string y).
Proof.
  destruct (String.eqb x y) eqn:E.
  - apply String.eqb_eq in E. subst y. symmetry. apply bytes_Equal_iff.
    reflexivity.
  - destruct (bytes.Equal _ _) eqn:E'; [|reflexivity].
    apply bytes_Equal_iff in E'.
    apply (f_equal string_of_list_byte) in E'.
    rewrite !string_of_list_byte_of_string in E'. subst y.
    rewrite String.eqb_refl in E. discriminate.
Qed.

Lemma diffSlices_Len_returns (a b : reflect.any) eq :
  isSlice a = true -> isSlice b = true ->
  let ab := {| diffSlices_a := reflect.Holding a;
               diffSlices_b := reflect.Holding b;
               diffSlices_eq := eq |} in
  returns diffSlices_LenA ab = Ok (len (elements a)) /\
  returns diffSlices_LenB ab = Ok (len (elements b)).
Proof.
  destruct a as [|ta ra ea]; [discriminate|].
  destruct b as [|tb rb eb]; [discriminate|]. simpl.
  intros Ha Hb. apply Kind_eqb_Slice in Ha, Hb. run_method.
  rewrite Ha, Hb. split; reflexivity.
Qed.

Lemma diffSlices_Equal_returns (a b : reflect.any) eq (ai bi : Z) :
  isSlice a = true -> isSlice b = true ->
  returns (diffSlices_Equal ai bi)
    {| diffSlices_a := reflect.Holding a; diffSlices_b := reflect.Holding b;
       diffSlices_eq := eq |} =
  match index (elements a) ai with
  | Ok x => match index (elements b) bi with
            | Ok y => Ok (eq x y)
            | Panic _ => Panic (Message "reflect: slice index out of range")
            end
  | Panic _ => Panic (Message "reflect: slice index out of range")
  end.
Proof.
  intros Ha Hb. unfold diffSlices_Equal.
  rewrite bind_returns by readonly.
  unfold returns at 1, field. cbv beta iota delta [snd].
  rewrite bind_returns by readonly.
  rewrite atA_returns by assumption.
  destruct (index (elements a) ai) as [x|q]; [|reflexivity].
  rewrite bind_returns by readonly.
  rewrite atB_returns by assumption.
  destruct (index (elements b) bi) as [y|q]; reflexivity.
Qed.

Lemma diffSlices_Write_returns {W} `{io.Writer W} Sprint (w : W)
  (a b : reflect.any) eq (i : Z) :
  isSlice a = true -> isSlice b = true ->
  let ab := {| diffSlices_a := reflect.Holding a;
               diffSlices_b := reflect.Holding b;
               diffSlices_eq := eq |} in
  returns (diffSlices_WriteATo Sprint w i) ab =
    match index (elements a) i with
    | Ok x => Ok (fmt.Fprint Sprint w x)
    | Panic _ => Panic (Message "reflect: slice index out of range")
    end /\
  returns (diffSlices_WriteBTo Sprint w i) ab =
    match index (elements b) i with
    | Ok y => Ok (fmt.Fprint Sprint w y)
    | Panic _ => Panic (Message "reflect: slice index out of range")
    end.
Proof.
  intros Ha Hb ab. subst ab. unfold diffSlices_WriteATo, diffSlices_WriteBTo.
  rewrite !bind_returns by readonly.
  rewrite atA_returns, atB_returns by assumption.
  split; [destruct (index (elements a) i)|destruct (index (elements b) i)];
    reflexivity.
Qed.

(** *** Slices *)

(** X1.  [Slices(a, b, equal)] returns a pair exactly when both [a] and
    [b] are values of a slice type (a nil interface is not); the pair
    then holds [reflect.ValueOf(a)], [reflect.ValueOf(b)] and the
    comparator, [reflect.DeepEqual] standing in for a nil one. *)
Theorem X1_Slices_returns_iff_both_slices
  (DeepEqual : reflect.any -> reflect.any -> bool) (a b : reflect.any)
  (equal : option (reflect.any -> reflect.any -> bool)) :
  (is_ok (Slices DeepEqual a b equal) = true <->
   isSlice a = true /\ isSlice b = true) /\
  (forall ab, Slices DeepEqual a b equal = Ok ab ->
     diffSlices_a ab = reflect.ValueOf a /\
     diffSlices_b ab = reflect.ValueOf b /\
     diffSlices_eq ab = match equal with None => DeepEqual | Some f => f end).
Proof.
  split; [split|].
  - intros H. destruct (Slices DeepEqual a b equal) as [ab|q] eqn:E;
      [|discriminate].
    apply Slices_inv in E. tauto.
  - intros [Ha Hb]. rewrite Slices_of_slices by assumption. reflexivity.
  - intros ab E. apply Slices_inv in E. destruct E as (Ha & Hb & ->).
    destruct a, b; try discriminate. simpl. auto.
Qed.

(** X2.  A typed first argument that is not a slice makes [Slices] panic
    with the error "diff.Slices called with a non-slice argument: "
    followed by the [%T] of both arguments, whatever the second argument
    is ([<nil>] for a nil one); so does a typed second argument that is
    not a slice after a slice. *)
Theorem X2_Slices_error_names_both_types
  (DeepEqual : reflect.any -> reflect.any -> bool)
  (ta : reflect.rtype) (ra : Z) (ea : list reflect.any) (b : reflect.any)
  (equal : option (reflect.any -> reflect.any -> bool)) :
  let a := reflect.dyn ta ra ea in
  let msg :=
    "diff.Slices called with a non-slice argument: "
      ++ reflect.str ta ++ ", "
      ++ match b with
         | reflect.untyped_nil => "<nil>"
         | reflect.dyn tb _ _ => reflect.str tb
         end in
  (reflect.kind ta <> reflect.Slice ->
   Slices DeepEqual a b equal = Panic (ErrorValue msg)) /\
  (reflect.kind ta = reflect.Slice ->
   b <> reflect.untyped_nil -> isSlice b = false ->
   Slices DeepEqual a b equal = Panic (ErrorValue msg)).
Proof.
  intros a msg. split.
  - intros Hk. apply Slices_descriptive_error; [discriminate|]. left.
    simpl. destruct (reflect.Kind_eqb (reflect.kind ta) reflect.Slice) eqn:E;
      [apply Kind_eqb_Slice in E; contradiction|reflexivity].
  - intros Hk Hb Hs. apply Slices_descriptive_error; [discriminate|].
    right. split; assumption.
Qed.

Lemma X2_witness :
  let int := {| reflect.kind := reflect.Int; reflect.str := "int" |} in
  Slices (fun _ _ => true) (reflect.dyn int 7 []) reflect.untyped_nil None
  = Panic (ErrorValue
             "diff.Slices called with a non-slice argument: int, <nil>").
Proof.
  intros int.
  apply (proj1 (X2_Slices_error_names_both_types (fun _ _ => true)
                  int 7 [] reflect.untyped_nil None)).
  discriminate.
Defined.

(** X3.  With a comparator supplied, [Equal(ai, bi)] of the pair is that
    comparator applied to element [ai] of [a] and element [bi] of [b],
    in this order; [reflect.DeepEqual] plays no part. *)
Theorem X3_Slices_custom_comparator
  (DeepEqual : reflect.any -> reflect.any -> bool)
  (a b : reflect.any) (f : reflect.any -> reflect.any -> bool)
  (ab : diffSlices) (ai bi : Z) :
  Slices DeepEqual a b (Some f) = Ok ab ->
  0 <= ai < len (elements a) -> 0 <= bi < len (elements b) ->
  exists x y,
    nth_error (elements a) (Z.to_nat ai) = Some x /\
    nth_error (elements b) (Z.to_nat bi) = Some y /\
    returns (diffSlices_Equal ai bi) ab = Ok (f x y) /\
    forall DeepEqual', Slices DeepEqual' a b (Some f) = Ok ab.
Proof.
  intros H Hai Hbi. apply Slices_inv in H. destruct H as (Ha & Hb & ->).
  destruct (index_in_range _ ai Hai) as (x & Hx & Ex).
  destruct (index_in_range _ bi Hbi) as (y & Hy & Ey).
  exists x, y. repeat split; try assumption.
  - rewrite diffSlices_Equal_returns, Ex, Ey by assumption. reflexivity.
  - intros D'. apply Slices_of_slices; assumption.
Qed.

Lemma X3_witness :
  let int := {| reflect.kind := reflect.Int; reflect.str := "int" |} in
  let ints := {| reflect.kind := reflect.Slice; reflect.str := "[]int" |} in
  let a := reflect.dyn ints 0 [reflect.dyn int 1 []; reflect.dyn int 2 []] in
  let b := reflect.dyn ints 0 [reflect.dyn int 2 []] in
  let f := fun x y : reflect.any =>
    match x, y with
    | reflect.dyn _ n _, reflect.dyn _ m _ => n <? m
    | _, _ => false
    end in
  let ab := {| diffSlices_a := reflect.Holding a;
               diffSlices_b := reflect.Holding b;
               diffSlices_eq := f |} in
  exists x y,
    nth_error (elements a) (Z.to_nat 0) = Some x /\
    nth_error (elements b) (Z.to_nat 0) = Some y /\
    returns (diffSlices_Equal 0 0) ab = Ok (f x y) /\
    forall DeepEqual', Slices DeepEqual' a b (Some f) = Ok ab.
Proof.
  intros int ints a b f ab.
  apply (X3_Slices_custom_comparator (fun _ _ => false) a b f ab 0 0);
    [reflexivity|unfold len; simpl; lia|unfold len; simpl; lia].
Defined.

(** X4.  On a pair returned by [Slices], [LenA()] and [LenB()] return the
    numbers of elements of [a] and [b], and [Equal], [WriteATo],
    [WriteBTo] return (do not panic) exactly when their indices are
    within those lengths. *)
Theorem X4_Slices_pair_lengths_and_range
  (DeepEqual : reflect.any -> reflect.any -> bool)
  (Sprint : reflect.any -> list byte)
  (a b : reflect.any) (equal : option (reflect.any -> reflect.any -> bool))
  (ab : diffSlices) :
  Slices DeepEqual a b equal = Ok ab ->
  returns diffSlices_LenA ab = Ok (len (elements a)) /\
  returns diffSlices_LenB ab = Ok (len (elements b)) /\
  (forall ai bi,
     is_ok (returns (diffSlices_Equal ai bi) ab) = true <->
     (0 <= ai < len (elements a) /\ 0 <= bi < len (elements b))) /\
  (forall W (HW : io.Writer W) (w : W) (i : Z),
     (is_ok (returns (diffSlices_WriteATo Sprint w i) ab) = true <->
      0 <= i < len (elements a)) /\
     (is_ok (returns (diffSlices_WriteBTo Sprint w i) ab) = true <->
      0 <= i < len (elements b))).
Proof.
  intros H. apply Slices_inv in H. destruct H as (Ha & Hb & ->).
  destruct (diffSlices_Len_returns a b
              (match equal with None => DeepEqual | Some f => f end) Ha Hb)
    as [LA LB].
  split; [exact LA|split; [exact LB|split]].
  - intros ai bi. rewrite diffSlices_Equal_returns by assumption.
    rewrite <- (index_is_ok (elements a) ai), <- (index_is_ok (elements b) bi).
    destruct (index (elements a) ai); [destruct (index (elements b) bi)|];
      simpl; intuition congruence.
  - intros W HW w i.
    destruct (diffSlices_Write_returns Sprint w a b
                (match equal with None => DeepEqual | Some f => f end) i Ha Hb)
      as [-> ->].
    rewrite <- (index_is_ok (elements a) i), <- (index_is_ok (elements b) i).
    destruct (index (elements a) i), (index (elements b) i); simpl;
      intuition congruence.
Qed.

Lemma X4_witness :
  let int := {| reflect.kind := reflect.Int; reflect.str := "int" |} in
  let ints := {| reflect.kind := reflect.Slice; reflect.str := "[]int" |} in
  let a := reflect.dyn ints 0 [reflect.dyn int 1 []; reflect.dyn int 2 []] in
  let b := reflect.dyn ints 0 [] in
  let ab := {| diffSlices_a := reflect.Holding a;
               diffSlices_b := reflect.Holding b;
               diffSlices_eq := fun _ _ => true |} in
  returns diffSlices_LenA ab = Ok 2 /\
  returns diffSlices_LenB ab = Ok 0 /\
  (forall ai bi,
     is_ok (returns (diffSlices_Equal ai bi) ab) = true <->
     (0 <= ai < 2 /\ 0 <= bi < 0)) /\
  (forall W (HW : io.Writer W) (w : W) (i : Z),
     (is_ok (returns (diffSlices_WriteATo (fun _ => []) w i) ab) = true <->
      0 <= i < 2) /\
     (is_ok (returns (diffSlices_WriteBTo (fun _ => []) w i) ab) = true <->
      0 <= i < 0)).
Proof.
  intros int ints a b ab.
  apply (X4_Slices_pair_lengths_and_range (fun _ _ => true) (fun _ => [])
           a b None ab).
  reflexivity.
Defined.

(** *** Strings and Bytes *)

(** X5.  An out-of-range call panics with the run-time error of the
    first index expression evaluated: [Equal(ai, bi)] reports [ai] with
    [len(a)] when [ai] is out of range, and [bi] with [len(b)] only when
    [ai] is in range; [WriteATo]/[WriteBTo] report [i] and panic before
    the sink is called.  In particular every call on an empty sequence
    panics. *)
Theorem X5_out_of_range_panics_at_first_index :
  (forall (a b : list string) (ai bi : Z),
      (~ 0 <= ai < len a ->
       returns (Equal ai bi) (Strings a b)
       = Panic (IndexOutOfRange ai (len a))) /\
      (0 <= ai < len a -> ~ 0 <= bi < len b ->
       returns (Equal ai bi) (Strings a b)
       = Panic (IndexOutOfRange bi (len b)))) /\
  (forall (a b : list (list byte)) (ai bi : Z),
      (~ 0 <= ai < len a ->
       returns (Equal ai bi) (Bytes a b)
       = Panic (IndexOutOfRange ai (len a))) /\
      (0 <= ai < len a -> ~ 0 <= bi < len b ->
       returns (Equal ai bi) (Bytes a b)
       = Panic (IndexOutOfRange bi (len b)))) /\
  (forall W (HW : io.Writer W) (w : W) (a b : list string) (i : Z),
      (~ 0 <= i < len a ->
       returns (WriteATo w i) (Strings a b)
       = Panic (IndexOutOfRange i (len a))) /\
      (~ 0 <= i < len b ->
       returns (WriteBTo w i) (Strings a b)
       = Panic (IndexOutOfRange i (len b)))) /\
  (forall W (HW : io.Writer W) (w : W) (a b : list (list byte)) (i : Z),
      (~ 0 <= i < len a ->
       returns (WriteATo w i) (Bytes a b)
       = Panic (IndexOutOfRange i (len a))) /\
      (~ 0 <= i < len b ->
       returns (WriteBTo w i) (Bytes a b)
       = Panic (IndexOutOfRange i (len b)))).
Proof.
  split; [|split; [|split]].
  - intros a b ai bi. simpl. rewrite diffStrings_Equal_returns. split.
    + intros Ha. rewrite (index_out_of_range a ai Ha). reflexivity.
    + intros Ha Hb. destruct (index_in_range a ai Ha) as (x & _ & ->).
      rewrite (index_out_of_range b bi Hb). reflexivity.
  - intros a b ai bi. simpl. rewrite diffBytes_Equal_returns. split.
    + intros Ha. rewrite (index_out_of_range a ai Ha). reflexivity.
    + intros Ha Hb. destruct (index_in_range a ai Ha) as (x & _ & ->).
      rewrite (index_out_of_range b bi Hb). reflexivity.
  - intros W HW w a b i. simpl.
    destruct (diffStrings_Write_returns w a b i) as [-> ->].
    split; intros Hi; rewrite index_out_of_range by assumption; reflexivity.
  - intros W HW w a b i. simpl.
    destruct (diffBytes_Write_returns w a b i) as [-> ->].
    split; intros Hi; rewrite index_out_of_range by assumption; reflexivity.
Qed.

Lemma X5_witness :
  returns (Equal 0 5) (Strings [] ["x"]) = Panic (IndexOutOfRange 0 0).
Proof.
  apply (proj1 (proj1 X5_out_of_range_panics_at_first_index [] ["x"] 0 5)).
  unfold len; simpl; lia.
Defined.

(** X6.  Diffing a sequence against itself compares every index equal
    to itself, and swapping the two sequences of a pair swaps the
    arguments of [Equal]: for in-range indices [Equal(ai, bi)] on
    [(a, b)] is [Equal(bi, ai)] on [(b, a)]. *)
Theorem X6_Equal_reflexive_symmetric :
  (forall (a : list string) (i : Z), 0 <= i < len a ->
      returns (Equal i i) (Strings a a) = Ok true) /\
  (forall (a : list (list byte)) (i : Z), 0 <= i < len a ->
      returns (Equal i i) (Bytes a a) = Ok true) /\
  (forall (a b : list string) (ai bi : Z),
      0 <= ai < len a -> 0 <= bi < len b ->
      returns (Equal ai bi) (Strings a b)
      = returns (Equal bi ai) (Strings b a)) /\
  (forall (a b : list (list byte)) (ai bi : Z),
      0 <= ai < len a -> 0 <= bi < len b ->
      returns (Equal ai bi) (Bytes a b)
      = returns (Equal bi ai) (Bytes b a)).
Proof.
  repeat match goal with |- _ /\ _ => split end.
  - intros a i Hi. simpl. rewrite diffStrings_Equal_returns.
    destruct (index_in_range a i Hi) as (x & _ & ->).
    rewrite String.eqb_refl. reflexivity.
  - intros a i Hi. simpl. rewrite diffBytes_Equal_returns.
    destruct (index_in_range a i Hi) as (x & _ & ->).
    rewrite (proj2 (bytes_Equal_iff x x) eq_refl). reflexivity.
  - intros a b ai bi Ha Hb. simpl. rewrite !diffStrings_Equal_returns.
    destruct (index_in_range a ai Ha) as (x & _ & ->).
    destruct (index_in_range b bi Hb) as (y & _ & ->).
    rewrite String.eqb_sym. reflexivity.
  - intros a b ai bi Ha Hb. simpl. rewrite !diffBytes_Equal_returns.
    destruct (index_in_range a ai Ha) as (x & _ & ->).
    destruct (index_in_range b bi Hb) as (y & _ & ->).
    f_equal. destruct (bytes.Equal x y) eqn:E.
    + apply bytes_Equal_iff in E. subst y. symmetry.
      apply bytes_Equal_iff. reflexivity.
    + destruct (bytes.Equal y x) eqn:E'; [|reflexivity].
      apply bytes_Equal_iff in E'. subst y.
      rewrite (proj2 (bytes_Equal_iff x x) eq_refl) in E. discriminate.
Qed.

Lemma X6_witness :
  returns (Equal 1 1) (Strings ["a"; "b"] ["a"; "b"]) = Ok true.
Proof.
  apply (proj1 X6_Equal_reflexive_symmetric ["a"; "b"] 1).
  unfold len; simpl; lia.
Defined.

(** X7.  A pair of string sequences and the pair of the same sequences
    converted to byte slices behave alike: [LenA], [LenB] and
    [Equal(ai, bi)] return the same (panics included), and
    [WriteATo]/[WriteBTo] do the same to a [bytes.Buffer]. *)
Theorem X7_Strings_agree_with_Bytes (a b : list string) :
  let a' := map list_byte_of_string a in
  let b' := map list_byte_of_string b in
  returns LenA (Strings a b) = returns LenA (Bytes a' b') /\
  returns LenB (Strings a b) = returns LenB (Bytes a' b') /\
  (forall ai bi,
     returns (Equal ai bi) (Strings a b)
     = returns (Equal ai bi) (Bytes a' b')) /\
  (forall (buf : bytes.Buffer) (i : Z),
     returns (WriteATo buf i) (Strings a b)
     = returns (WriteATo buf i) (Bytes a' b') /\
     returns (WriteBTo buf i) (Strings a b)
     = returns (WriteBTo buf i) (Bytes a' b')).
Proof.
  intros a' b'. subst a' b'. split; [|split; [|split]].
  - run_method. unfold len. rewrite length_map. reflexivity.
  - run_method. unfold len. rewrite length_map. reflexivity.
  - intros ai bi. simpl.
    rewrite diffStrings_Equal_returns, diffBytes_Equal_returns, !index_map.
    destruct (index a ai) as [x|]; [|reflexivity].
    destruct (index b bi) as [y|]; [|reflexivity].
    rewrite string_eqb_bytes. reflexivity.
  - intros buf i. simpl.
    destruct (diffStrings_Write_returns buf a b i) as [-> ->].
    destruct (diffBytes_Write_returns buf
                (map list_byte_of_string a) (map list_byte_of_string b) i)
      as [-> ->].
    rewrite !index_map.
    split; [destruct (index a i)|destruct (index b i)]; reflexivity.
Qed.

(** *** Writing a whole sequence *)

Lemma skipn_nth_error {A} (l : list A) (n : nat) (x : A) :
  nth_error l n = Some x -> skipn n l = x :: skipn (S n) l.
Proof.
  revert n. induction l as [|y l IH]; intros [|n] H; simpl in *;
    try discriminate.
  - injection H as ->. reflexivity.
  - apply IH. exact H.
Qed.

Lemma len_app {A} (s t : list A) : len (s ++ t)%list = len s + len t.
Proof. unfold len. rewrite length_app. lia. Qed.

Lemma writeRunA_S {P W} `{DiffWrite P} `{io.Writer W}
  (n : nat) (i : Z) (w : W) (ab : P) :
  writeRunA (S n) i w ab =
  match returns (WriteATo w i) ab with
  | Panic q => Panic q
  | Ok (w', (c, Some e)) => Ok (w', (c, Some e))
  | Ok (w', (c, None)) =>
      match writeRunA n (i + 1) w' (leaves (WriteATo w i) ab) with
      | Panic q => Panic q
      | Ok (w'', (c', e)) => Ok (w'', (c + c', e))
      end
  end.
Proof. reflexivity. Qed.

Lemma writeRunA_Bytes (a b : list (list byte)) (n : nat) :
  forall (i : Z) (buf : bytes.Buffer),
    0 <= i -> (Z.to_nat i + n <= List.length a)%nat ->
    let out := List.concat (firstn n (skipn (Z.to_nat i) a)) in
    writeRunA n i buf (Bytes a b) = Ok ((buf ++ out)%list, (len out, None)).
Proof.
  induction n as [|n IH]; intros i buf Hi Hn out; subst out.
  - simpl. rewrite app_nil_r. reflexivity.
  - rewrite writeRunA_S.
    change (WriteATo (P := diffBytes) buf i) with (diffBytes_WriteATo buf i).
    rewrite (proj1 (readonly_diffBytes_writes buf i)).
    rewrite (proj1 (diffBytes_Write_returns buf a b i)).
    assert (Hr : 0 <= i < len a) by (unfold len; lia).
    destruct (index_in_range a i Hr) as (x & Hx & ->).
    cbn [io.Write bytes.Buffer_Writer].
    rewrite (IH (i + 1) (buf ++ x)%list) by lia.
    replace (Z.to_nat (i + 1)) with (S (Z.to_nat i)) by lia.
    rewrite (skipn_nth_error a _ x Hx). cbn [firstn List.concat].
    rewrite len_app, app_assoc. reflexivity.
Qed.

Lemma writeRunA_Bytes_past_end (a b : list (list byte)) (n : nat) :
  forall (i : Z) (buf : bytes.Buffer),
    0 <= i -> (Z.to_nat i + n = List.length a)%nat ->
    writeRunA (S n) i buf (Bytes a b)
    = Panic (IndexOutOfRange (len a) (len a)).
Proof.
  induction n as [|n IH]; intros i buf Hi Hn.
  - rewrite writeRunA_S.
    change (WriteATo (P := diffBytes) buf i) with (diffBytes_WriteATo buf i).
    rewrite (proj1 (diffBytes_Write_returns buf a b i)).
    rewrite index_out_of_range by (unfold len; lia).
    replace i with (len a) by (unfold len; lia). reflexivity.
  - rewrite writeRunA_S.
    change (WriteATo (P := diffBytes) buf i) with (diffBytes_WriteATo buf i).
    rewrite (proj1 (readonly_diffBytes_writes buf i)).
    rewrite (proj1 (diffBytes_Write_returns buf a b i)).
    assert (Hr : 0 <= i < len a) by (unfold len; lia).
    destruct (index_in_range a i Hr) as (x & Hx & ->).
    cbn [io.Write bytes.Buffer_Writer].
    rewrite (IH (i + 1) (buf ++ x)%list) by lia. reflexivity.
Qed.

Lemma writeRunA_Strings (a b : list string) (n : nat) :
  forall (i : Z) (buf : bytes.Buffer),
    0 <= i -> (Z.to_nat i + n <= List.length a)%nat ->
    let out :=
      List.concat
        (map list_byte_of_string (firstn n (skipn (Z.to_nat i) a))) in
    writeRunA n i buf (Strings a b) = Ok ((buf ++ out)%list, (len out, None)).
Proof.
  induction n as [|n IH]; intros i buf Hi Hn out; subst out.
  - simpl. rewrite app_nil_r. reflexivity.
  - rewrite writeRunA_S.
    change (WriteATo (P := diffStrings) buf i)
      with (diffStrings_WriteATo buf i).
    rewrite (proj1 (readonly_diffStrings_writes buf i)).
    rewrite (proj1 (diffStrings_Write_returns buf a b i)).
    assert (Hr : 0 <= i < len a) by (unfold len; lia).
    destruct (index_in_range a i Hr) as (x & Hx & ->).
    unfold io.WriteString. cbn [io.StringWriter bytes.Buffer_Writer].
    rewrite (IH (i + 1) (buf ++ list_byte_of_string x)%list) by lia.
    replace (Z.to_nat (i + 1)) with (S (Z.to_nat i)) by lia.
    rewrite (skipn_nth_error a _ x Hx). cbn [firstn map List.concat].
    rewrite len_app, app_assoc. reflexivity.
Qed.

Lemma writeRunA_Strings_past_end (a b : list string) (n : nat) :
  forall (i : Z) (buf : bytes.Buffer),
    0 <= i -> (Z.to_nat i + n = List.length a)%nat ->
    writeRunA (S n) i buf (Strings a b)
    = Panic (IndexOutOfRange (len a) (len a)).
Proof.
  induction n as [|n IH]; intros i buf Hi Hn.
  - rewrite writeRunA_S.
    change (WriteATo (P := diffStrings) buf i)
      with (diffStrings_WriteATo buf i).
    rewrite (proj1 (diffStrings_Write_returns buf a b i)).
    rewrite index_out_of_range by (unfold len; lia).
    replace i with (len a) by (unfold len; lia). reflexivity.
  - rewrite writeRunA_S.
    change (WriteATo (P := diffStrings) buf i)
      with (diffStrings_WriteATo buf i).
    rewrite (proj1 (readonly_diffStrings_writes buf i)).
    rewrite (proj1 (diffStrings_Write_returns buf a b i)).
    assert (Hr : 0 <= i < len a) by (unfold len; lia).
    destruct (index_in_range a i Hr) as (x & Hx & ->).
    unfold io.WriteString. cbn [io.StringWriter bytes.Buffer_Writer].
    rewrite (IH (i + 1) (buf ++ list_byte_of_string x)%list) by lia.
    reflexivity.
Qed.

(** X8.  Writing the elements of [a] one after the other, from index 0
    to the last, to a [bytes.Buffer] appends to the buffer exactly the
    concatenation of the elements (of their bytes, for strings), and
    the counts returned add up to its length, with no error; one write
    more runs past the end and panics. *)
Theorem X8_writing_all_elements_concatenates :
  (forall (a b : list string) (buf : bytes.Buffer),
      let out := List.concat (map list_byte_of_string a) in
      writeRunA (List.length a) 0 buf (Strings a b)
      = Ok ((buf ++ out)%list, (len out, None)) /\
      writeRunA (S (List.length a)) 0 buf (Strings a b)
      = Panic (IndexOutOfRange (len a) (len a))) /\
  (forall (a b : list (list byte)) (buf : bytes.Buffer),
      let out := List.concat a in
      writeRunA (List.length a) 0 buf (Bytes a b)
      = Ok ((buf ++ out)%list, (len out, None)) /\
      writeRunA (S (List.length a)) 0 buf (Bytes a b)
      = Panic (IndexOutOfRange (len a) (len a))).
Proof.
  split; intros a b buf out; subst out; split.
  - pose proof (writeRunA_Strings a b (List.length a) 0 buf) as H.
    cbv zeta in H. change (Z.to_nat 0) with 0%nat in H.
    cbn [skipn] in H. rewrite firstn_all in H. apply H; simpl; lia.
  - apply writeRunA_Strings_past_end; simpl; lia.
  - pose proof (writeRunA_Bytes a b (List.length a) 0 buf) as H.
    cbv zeta in H. change (Z.to_nat 0) with 0%nat in H.
    cbn [skipn] in H. rewrite firstn_all in H. apply H; simpl; lia.
  - apply writeRunA_Bytes_past_end; simpl; lia.
Qed.

End AdapterExtra.

(* ================================================================== *)
(** * Further properties of the command                                 *)
(* ================================================================== *)

Module CmdExtra.

Import Cmd.

Lemma len_two {A} (l : list A) :
  len l = 2 -> exists x y, l = [x; y].
Proof.
  unfold len. destruct l as [|x [|y [|z l]]]; simpl; intros H; try lia.
  exists x, y. reflexivity.
Qed.

Section Run.

Variable EditScript : Type.
Variable Myers : Context -> Adapter.diffStrings -> EditScript.
Variable WriteUnified :
  EditScript -> Z -> Adapter.diffStrings -> list WriteOpt ->
  list byte * (Z * option error).
Variable fs : string -> error + (list string * option error).
Variable ParseInt : string -> option Z.
Variable ParseDuration : string -> option Z.

Local Abbreviation run :=
  (main EditScript Myers WriteUnified fs ParseInt ParseDuration).
Local Abbreviation parse := (flag_Parse ParseInt ParseDuration).

Lemma main_first_unreadable (base : string) (arguments : list string)
  (inv : invocation) (n1 n2 : string) (e : error) :
  parse base arguments = pure inv ->
  Args inv = [n1; n2] -> unreadable fs n1 e ->
  run base arguments = ([Opened n1; Logged e], inr 1).
Proof.
  intros Hp H U. unfold main. rewrite Hp, CmdSpec.andThen_pure.
  unfold fileLines, flag_Arg. rewrite H. simpl.
  destruct U as [U|[lines U]]; rewrite U; reflexivity.
Qed.

Lemma main_second_unreadable (base : string) (arguments : list string)
  (inv : invocation) (n1 n2 : string) (aLines : list string) (e : error) :
  parse base arguments = pure inv ->
  Args inv = [n1; n2] -> fs n1 = inr (aLines, None) -> unreadable fs n2 e ->
  run base arguments = ([Opened n1; Opened n2; Logged e], inr 1).
Proof.
  intros Hp H F1 U. unfold main. rewrite Hp, CmdSpec.andThen_pure.
  unfold fileLines, flag_Arg. rewrite H. simpl.
  rewrite F1. simpl.
  destruct U as [U|[lines U]]; rewrite U; reflexivity.
Qed.

Lemma readable_or_not (name : string) :
  (exists lines, fs name = inr (lines, None)) \/ exists e, unreadable fs name e.
Proof.
  unfold unreadable. destruct (fs name) as [e|[lines [e|]]]; eauto.
Qed.

End Run.

(** X9.  When [flag.Parse()] leaves two arguments and the first file
    cannot be read (it does not open, or its scan ends with an error),
    the command logs that error and exits with status 1 without opening
    the second file and without writing anything to standard output. *)
Theorem X9_first_file_error_is_fatal
  EditScript Myers WriteUnified fs ParseInt ParseDuration
  (base : string) (arguments : list string) (inv : invocation)
  (n1 n2 : string) (e : error) :
  flag_Parse ParseInt ParseDuration base arguments = pure inv ->
  Args inv = [n1; n2] -> unreadable fs n1 e ->
  let run := main EditScript Myers WriteUnified fs ParseInt ParseDuration
               base arguments in
  events run = [Opened n1; Logged e] /\ status run = 1.
Proof.
  intros Hp H U run. subst run.
  rewrite (main_first_unreadable EditScript Myers WriteUnified fs
             ParseInt ParseDuration base arguments inv n1 n2 e Hp H U).
  split; reflexivity.
Qed.

Lemma X9_witness :
  let run := main unit (fun _ _ => tt) (fun _ _ _ _ => ([], (0, None)))
               (fun _ => inl "no such file") (fun _ => None) (fun _ => None)
               "pkg-diff-example" ["old"; "new"] in
  events run = [Opened "old"; Logged "no such file"] /\ status run = 1.
Proof.
  intros run.
  apply (X9_first_file_error_is_fatal unit (fun _ _ => tt)
           (fun _ _ _ _ => ([], (0, None))) (fun _ => inl "no such file")
           (fun _ => None) (fun _ => None)
           "pkg-diff-example" ["old"; "new"]
           {| color := false; timeout := 0; unified := 3;
              Args := ["old"; "new"]; base := "pkg-diff-example" |}
           "old" "new" "no such file").
  - reflexivity.
  - reflexivity.
  - left. reflexivity.
Defined.

(** X10.  When [flag.Parse()] leaves two arguments, the first file
    reads and the second cannot be read, the command has opened both,
    logs the second file's error and exits with status 1; no diff is
    written to standard output. *)
Theorem X10_second_file_error_is_fatal
  EditScript Myers WriteUnified fs ParseInt ParseDuration
  (base : string) (arguments : list string) (inv : invocation)
  (n1 n2 : string) (aLines : list string) (e : error) :
  flag_Parse ParseInt ParseDuration base arguments = pure inv ->
  Args inv = [n1; n2] -> fs n1 = inr (aLines, None) -> unreadable fs n2 e ->
  let run := main EditScript Myers WriteUnified fs ParseInt ParseDuration
               base arguments in
  events run = [Opened n1; Opened n2; Logged e] /\ status run = 1.
Proof.
  intros Hp H F1 U run. subst run.
  rewrite (main_second_unreadable EditScript Myers WriteUnified fs
             ParseInt ParseDuration base arguments inv n1 n2 aLines e
             Hp H F1 U).
  split; reflexivity.
Qed.

Lemma X10_witness :
  let fs := fun name : string =>
    if String.eqb name "old" then inr (["a"], None)
    else inr (["a"; "b"], Some "read error") in
  let run := main unit (fun _ _ => tt) (fun _ _ _ _ => ([], (0, None)))
               fs (fun _ => Some 0) (fun _ => None)
               "pkg-diff-example" ["-color"; "-unified=0"; "old"; "new"] in
  events run = [Opened "old"; Opened "new"; Logged "read error"] /\
  status run = 1.
Proof.
  intros fs run.
  apply (X10_second_file_error_is_fatal unit (fun _ _ => tt)
           (fun _ _ _ _ => ([], (0, None))) fs
           (fun _ => Some 0) (fun _ => None)
           "pkg-diff-example" ["-color"; "-unified=0"; "old"; "new"]
           {| color := true; timeout := 0; unified := 0;
              Args := ["old"; "new"]; base := "pkg-diff-example" |}
           "old" "new" ["a"] "read error").
  - reflexivity.
  - reflexivity.
  - reflexivity.
  - right. exists ["a"; "b"]. reflexivity.
Defined.

(** X11.  Every run of the command ends with status 0, 1 or 2.  Status
    1 is exactly a run in which [check] logged an error; status 2 is
    exactly a run in which [flag.Parse()] reported a bad flag or the
    syntax line was printed; the syntax line is printed exactly when
    [flag.Parse()] accepted the command line and left other than two
    arguments.  The diff is written only when two arguments were left
    and both files read without error, and a run that ends with status
    0 has written its diff or was a request for help. *)
Theorem X11_exit_status_and_output :
  forall EditScript Myers WriteUnified fs ParseInt ParseDuration
         (base : string) (arguments : list string),
    let run := main EditScript Myers WriteUnified fs ParseInt ParseDuration
                 base arguments in
    let accepted := fun inv =>
      flag_Parse ParseInt ParseDuration base arguments = pure inv in
    (status run = 0 \/ status run = 1 \/ status run = 2) /\
    (status run = 1 <-> exists e, In (Logged e) (events run)) /\
    (status run = 2 <->
     (exists e, In (FlagError e) (events run)) \/
     (exists s, In (Printed s) (events run))) /\
    (forall s, In (Printed s) (events run) <->
       s = "syntax: " ++ base ++ " name1 name2" ++ newline /\
       exists inv, accepted inv /\ len (Args inv) <> 2) /\
    (forall out, In (Stdout out) (events run) ->
       exists inv n1 n2 aLines bLines,
         accepted inv /\ Args inv = [n1; n2] /\
         fs n1 = inr (aLines, None) /\ fs n2 = inr (bLines, None)) /\
    (status run = 0 ->
     (exists out, In (Stdout out) (events run)) \/ events run = [FlagUsage]).
Proof.
  intros EditScript Myers WriteUnified fs ParseInt ParseDuration
    base arguments run accepted. subst run accepted. cbv beta.
  destruct (CmdSpec.flag_Parse_cases ParseInt ParseDuration base arguments)
    as [[inv Hp]|[Hp|[fe Hp]]].
  - assert (Huniq : forall inv',
              flag_Parse ParseInt ParseDuration base arguments = pure inv' ->
              inv' = inv).
    { intros inv' Hp'. rewrite Hp in Hp'. unfold pure in Hp'.
      congruence. }
    destruct (Z.eq_dec (len (Args inv)) 2) as [H2|H2].
    + destruct (len_two _ H2) as (n1 & n2 & HA).
      destruct (readable_or_not fs n1) as [[la F1]|[e U1]].
      * destruct (readable_or_not fs n2) as [[lb F2]|[e U2]].
        -- rewrite (CmdSpec.main_two_readable EditScript Myers WriteUnified
                      fs ParseInt ParseDuration base arguments inv n1 n2
                      la lb Hp HA F1 F2).
           destruct (snd (snd (WriteUnified _ _ _ _))) as [e|];
             unfold status, events; simpl.
           ++ split; [lia|]. split; [split; [eauto 6|reflexivity]|].
              split; [split; [lia|]|].
              { intros [[x Hx]|[x Hx]];
                  repeat destruct Hx as [Hx|Hx]; try discriminate;
                  contradiction. }
              split; [intros s; split|].
              { intros Hx. repeat destruct Hx as [Hx|Hx];
                  try discriminate; contradiction. }
              { intros [_ (inv' & Hp' & Hn)].
                rewrite (Huniq _ Hp') in Hn. contradiction. }
              split; [|discriminate].
              intros out _. exists inv, n1, n2, la, lb. auto.
           ++ split; [lia|]. split; [split; [discriminate|]|].
              { intros [x Hx]. repeat destruct Hx as [Hx|Hx];
                  try discriminate; contradiction. }
              split; [split; [lia|]|].
              { intros [[x Hx]|[x Hx]];
                  repeat destruct Hx as [Hx|Hx]; try discriminate;
                  contradiction. }
              split; [intros s; split|].
              { intros Hx. repeat destruct Hx as [Hx|Hx];
                  try discriminate; contradiction. }
              { intros [_ (inv' & Hp' & Hn)].
                rewrite (Huniq _ Hp') in Hn. contradiction. }
              split; [|intros _; left; eauto 6].
              intros out _. exists inv, n1, n2, la, lb. auto.
        -- rewrite (main_second_unreadable EditScript Myers WriteUnified fs
                      ParseInt ParseDuration base arguments inv n1 n2 la e
                      Hp HA F1 U2).
           unfold status, events; simpl.
           split; [lia|]. split; [split; [eauto 6|reflexivity]|].
           split; [split; [lia|]|].
           { intros [[x Hx]|[x Hx]];
               repeat destruct Hx as [Hx|Hx]; try discriminate;
               contradiction. }
           split; [intros s; split|].
           { intros Hx. repeat destruct Hx as [Hx|Hx];
               try discriminate; contradiction. }
           { intros [_ (inv' & Hp' & Hn)].
             rewrite (Huniq _ Hp') in Hn. contradiction. }
           split; [|discriminate].
           intros out Hx. repeat destruct Hx as [Hx|Hx];
             try discriminate; contradiction.
      * rewrite (main_first_unreadable EditScript Myers WriteUnified fs
                   ParseInt ParseDuration base arguments inv n1 n2 e
                   Hp HA U1).
        unfold status, events; simpl.
        split; [lia|]. split; [split; [eauto 6|reflexivity]|].
        split; [split; [lia|]|].
        { intros [[x Hx]|[x Hx]];
            repeat destruct Hx as [Hx|Hx]; try discriminate;
            contradiction. }
        split; [intros s; split|].
        { intros Hx. repeat destruct Hx as [Hx|Hx];
            try discriminate; contradiction. }
        { intros [_ (inv' & Hp' & Hn)].
          rewrite (Huniq _ Hp') in Hn. contradiction. }
        split; [|discriminate].
        intros out Hx. repeat destruct Hx as [Hx|Hx];
          try discriminate; contradiction.
    + rewrite (CmdSpec.main_usage EditScript Myers WriteUnified fs
                 ParseInt ParseDuration base arguments inv Hp H2).
      unfold status, events; simpl.
      split; [lia|]. split; [split; [discriminate|]|].
      { intros [x Hx]. repeat destruct Hx as [Hx|Hx];
          try discriminate; contradiction. }
      split; [split; [intros _; right; eauto|reflexivity]|].
      split; [intros s; split|].
      { intros [Hx|[]]. injection Hx as <-. split; [reflexivity|].
        exists inv. split; [exact Hp|exact H2]. }
      { intros [-> _]. left. reflexivity. }
      split; [|discriminate].
      intros out Hx. repeat destruct Hx as [Hx|Hx];
        try discriminate; contradiction.
  - rewrite (CmdSpec.main_help EditScript Myers WriteUnified fs
               ParseInt ParseDuration base arguments Hp).
    unfold status, events; simpl.
    split; [lia|]. split; [split; [discriminate|]|].
    { intros [x Hx]. repeat destruct Hx as [Hx|Hx];
        try discriminate; contradiction. }
    split; [split; [discriminate|]|].
    { intros [[x Hx]|[x Hx]];
        repeat destruct Hx as [Hx|Hx]; try discriminate; contradiction. }
    split; [intros s; split|].
    { intros Hx. repeat destruct Hx as [Hx|Hx];
        try discriminate; contradiction. }
    { intros [_ (inv' & Hp' & _)]. rewrite Hp in Hp'. discriminate. }
    split; [|intros _; right; reflexivity].
    intros out Hx. repeat destruct Hx as [Hx|Hx];
      try discriminate; contradiction.
  - rewrite (CmdSpec.main_rejected EditScript Myers WriteUnified fs
               ParseInt ParseDuration base arguments fe Hp).
    unfold status, events; simpl.
    split; [lia|]. split; [split; [discriminate|]|].
    { intros [x Hx]. repeat destruct Hx as [Hx|Hx];
        try discriminate; contradiction. }
    split; [split; [intros _; left; eauto|reflexivity]|].
    split; [intros s; split|].
    { intros Hx. repeat destruct Hx as [Hx|Hx];
        try discriminate; contradiction. }
    { intros [_ (inv' & Hp' & _)]. rewrite Hp in Hp'. discriminate. }
    split; [|discriminate].
    intros out Hx. repeat destruct Hx as [Hx|Hx];
      try discriminate; contradiction.
Qed.

End CmdExtra.
